(** * draftjs-to-markdown: a shallow embedding of [src/js/index.ts]

    The converter turns a Draft.js raw content state (blocks of text with
    entity ranges and inline style ranges) into a markdown / HTML string.
    This development embeds the functions of [src/js/index.ts] and
    [src/js/common.ts] as Rocq functions and states the properties of the
    specification about them.

    Conventions of the embedding:
    - a JavaScript [number] used as an offset, a length or an index is a [Z];
    - a JavaScript string is a [string]; one [ascii] stands for one UTF-16
      code unit in the range 0..255;
    - a sparse array ([new Array(n)] filled by index) is a [gmap Z _]: a hole
      reads as [None] (JavaScript [undefined]);
    - an object used as a dictionary is a [gmap] on its keys;
    - a computation that may throw, or that may loop forever, returns an
      [Outcome]. *)

From Stdlib Require Import ZArith String Ascii List Bool Lia Sorted.
From stdpp Require Import base option list gmap strings pretty.

Local Open Scope Z_scope.

(** ** Outcomes of computations that may throw or diverge *)

Inductive Outcome (A : Type) : Type :=
  | Ok (a : A)
  | Throws
  | Diverges.
Arguments Ok {A} a.
Arguments Throws {A}.
Arguments Diverges {A}.

Definition obind {A B : Type} (m : Outcome A) (k : A -> Outcome B) : Outcome B :=
  match m with
  | Ok a => k a
  | Throws => Throws
  | Diverges => Diverges
  end.

Notation "'let?' x ':=' m 'in' k" := (obind m (fun x => k))
  (at level 10, x pattern, m at level 100, k at level 200).

(** [xs.forEach(x => { acc = f(acc, x) })] where the callback may throw. *)
Fixpoint forEachM {A S : Type} (f : S -> A -> Outcome S) (xs : list A) (s : S)
  : Outcome S :=
  match xs with
  | [] => Ok s
  | x :: xs' => let? s' := f s x in forEachM f xs' s'
  end.

(** ** The JavaScript string primitives the converter calls *)

Module JS.

Definition len (s : string) : Z := Z.of_nat (String.length s).

(** [s.startsWith(p)] *)
Definition startsWith (s p : string) : bool := String.prefix p s.

(** [s.indexOf(p)]: the first position at which [p] occurs, or [-1]. *)
Fixpoint indexOfFrom (k : Z) (s p : string) : Z :=
  if String.prefix p s then k
  else match s with
       | EmptyString => -1
       | String _ s' => indexOfFrom (k + 1) s' p
       end.

Definition indexOf (s p : string) : Z := indexOfFrom 0 s p.

(** [s.substr(start, length)]; a negative [start] counts from the end. *)
Definition substr (s : string) (start length : Z) : string :=
  let n := len s in
  let st := if start <? 0 then Z.max (n + start) 0 else Z.min start n in
  String.substring (Z.to_nat st) (Z.to_nat (Z.max length 0)) s.

(** [s.substr(start)] *)
Definition substrFrom (s : string) (start : Z) : string :=
  substr s start (len s).

(** [s.substring(from, to)]: both indices are clamped to the string and
    swapped when out of order. *)
Definition substring (s : string) (from to : Z) : string :=
  let a := Z.min (Z.max from 0) (len s) in
  let b := Z.min (Z.max to 0) (len s) in
  String.substring (Z.to_nat (Z.min a b)) (Z.to_nat (Z.max a b - Z.min a b)) s.

(** [s.substring(from)] *)
Definition substringFrom (s : string) (from : Z) : string :=
  substring s from (len s).

(** [s[i]]: a one-character string.  Out of range JavaScript gives
    [undefined]; the converter only ever joins these values into a string
    ([Array.prototype.join] prints [undefined] as the empty string), so the
    empty string stands for it. *)
Definition charAt (s : string) (i : Z) : string :=
  if (0 <=? i) && (i <? len s) then String.substring (Z.to_nat i) 1 s
  else EmptyString.

(** [xs.join('')] *)
Definition join (xs : list string) : string :=
  fold_right String.append EmptyString xs.

(** [c.repeat(n)] *)
Fixpoint repeat (s : string) (n : nat) : string :=
  match n with
  | O => EmptyString
  | S n' => s +:+ repeat s n'
  end.

(** White space in the sense of [String.prototype.trim], for code units
    below 256: TAB, LF, VT, FF, CR, space and the no-break space. *)
Definition isWhiteSpace (c : ascii) : bool :=
  let n := nat_of_ascii c in
  ((9 <=? n) && (n <=? 13) || (n =? 32) || (n =? 160))%nat.

Fixpoint trimStart (s : string) : string :=
  match s with
  | EmptyString => EmptyString
  | String c s' => if isWhiteSpace c then trimStart s' else s
  end.

Definition rev (s : string) : string :=
  string_of_list_ascii (List.rev (list_ascii_of_string s)).

(** [s.trim()] *)
Definition trim (s : string) : string :=
  rev (trimStart (rev (trimStart s))).

End JS.

(** ** Data model ([src/js/index.ts], lines 3-119) *)

Inductive SectionType := ENTITY | HASHTAG.

Record EntityRange := {
  er_offset : Z;
  er_length : Z;
  er_key : Z;
}.

Record InlineStyleRange := {
  isr_offset : Z;
  isr_length : Z;
  isr_style : string;
}.

Record Block := {
  key : string;
  text : string;
  type : string;
  depth : Z;
  entityRanges : list EntityRange;
  inlineStyleRanges : list InlineStyleRange;
}.

Record HashConfig := {
  trigger : string;
  separator : string;
}.

Record PreSection := {
  ps_offset : Z;
  ps_length : Z;
  ps_key : option Z;
  ps_type : SectionType;
}.

(** [Section] of the source: [end_] is exclusive, as in
    [end: PreSection.offset + PreSection.length]. *)
Record Sect := {
  start : Z;
  end_ : Z;
  entityKey : option Z;
  stype : option SectionType;
}.

(** ** Hashtag detection ([getHashtagRanges], lines 180-213) *)

(** The variables of the loop. *)
Record HashScan := {
  hs_text : string;
  hs_counter : Z;
  hs_startIndex : Z;
  hs_preSections : list PreSection;
}.

(** The loop condition [text.length > 0 && startIndex >= 0]. *)
Definition hashScanCond (st : HashScan) : bool :=
  (0 <? JS.len (hs_text st)) && (0 <=? hs_startIndex st).

(** One run of the loop body. *)
Definition hashScanBody (hashConfig : HashConfig) (st : HashScan) : HashScan :=
  let trigger := trigger hashConfig in
  let separator := separator hashConfig in
  let '(text, startIndex, counter) :=
    if JS.startsWith (hs_text st) trigger then
      (JS.substrFrom (hs_text st) (JS.len trigger), 0, 0)
    else
      let startIndex := JS.indexOf (hs_text st) (separator +:+ trigger) in
      if 0 <=? startIndex then
        (JS.substrFrom (hs_text st)
           (startIndex + JS.len (separator +:+ trigger)),
         startIndex,
         hs_counter st + (startIndex + JS.len separator))
      else (hs_text st, startIndex, hs_counter st) in
  if 0 <=? startIndex then
    let endIndex :=
      if 0 <=? JS.indexOf text separator then JS.indexOf text separator
      else JS.len text in
    let hashtagText := JS.substr text 0 endIndex in
    let preSections :=
      if 0 <? JS.len hashtagText then
        hs_preSections st ++
          [{| ps_offset := counter;
              ps_length := JS.len hashtagText + JS.len trigger;
              ps_key := None;
              ps_type := HASHTAG |}]
      else hs_preSections st in
    {| hs_text := text; hs_counter := counter + JS.len trigger;
       hs_startIndex := startIndex; hs_preSections := preSections |}
  else
    {| hs_text := text; hs_counter := counter;
       hs_startIndex := startIndex; hs_preSections := hs_preSections st |}.

(** The loop, run for at most [fuel] iterations: [None] when the condition
    still holds after [fuel] runs of the body. *)
Fixpoint hashScanLoop (fuel : nat) (hashConfig : HashConfig) (st : HashScan)
  : option (list PreSection) :=
  if hashScanCond st then
    match fuel with
    | O => None
    | S fuel' => hashScanLoop fuel' hashConfig (hashScanBody hashConfig st)
    end
  else Some (hs_preSections st).

Definition hashScanInit (text : string) : HashScan :=
  {| hs_text := text; hs_counter := 0; hs_startIndex := 0;
     hs_preSections := [] |}.

Definition getHashtagRangesFuel (fuel : nat) (text : string)
  (hashConfig : HashConfig) : option (list PreSection) :=
  hashScanLoop fuel hashConfig (hashScanInit text).

(** [getHashtagRanges]: [String.length text] iterations are enough whenever
    the trigger is not empty ([hashScanLoop_enough_fuel] below); with an empty
    trigger and a non-empty text the loop never ends
    ([hashScanLoop_empty_trigger]). *)
Definition getHashtagRanges (text : string) (hashConfig : HashConfig)
  : Outcome (list PreSection) :=
  match getHashtagRangesFuel (String.length text) text hashConfig with
  | Some preSections => Ok preSections
  | None => Diverges
  end.

Definition defaultHashConfig : HashConfig :=
  {| trigger := "#"; separator := " " |}.

(** ** Entities ([getEntityMarkdown], lines 154-174) *)

(** A field of [entity.data]: the renderer only prints these values inside
    template literals. *)
Inductive DataValue :=
  | DStr (s : string)
  | DNum (n : Z).

Record Entity := {
  etype : string;
  mutability : string;
  data : gmap string DataValue;
}.

(** [`${v}`] for a field that may be absent. *)
Definition templateOf (v : option DataValue) : string :=
  match v with
  | Some (DStr s) => s
  | Some (DNum n) => pretty n
  | None => "undefined"
  end.

(** JavaScript truthiness of a field. *)
Definition dataTruthy (v : DataValue) : bool :=
  match v with
  | DStr s => negb (String.eqb s "")
  | DNum n => negb (n =? 0)
  end.

(** [v || ''] *)
Definition orEmpty (v : option DataValue) : option DataValue :=
  match v with
  | Some d => if dataTruthy d then Some d else Some (DStr "")
  | None => Some (DStr "")
  end.

(** [CustomEntityTransform]: the entity handed over is [entityMap[key]], which
    is [undefined] ([None]) for a key the map does not have; the result is a
    string or [undefined]. *)
Definition CustomEntityTransform : Type :=
  option Entity -> string -> option string.

Definition dq : string := String (ascii_of_nat 34) EmptyString.
Definition nl : string := String (ascii_of_nat 10) EmptyString.

(** The [switch (entity.type)] of [getEntityMarkdown]. *)
Definition builtinEntityMarkdown (entity : Entity) (text : string) : string :=
  if decide (etype entity = "LINK" \/ etype entity = "MENTION") then
    "[" +:+ text +:+ "](" +:+ templateOf (data entity !! "url") +:+ ")"
  else if decide (etype entity = "IMAGE") then
    "![" +:+ templateOf (orEmpty (data entity !! "alt")) +:+ "]("
      +:+ templateOf (data entity !! "src") +:+ ")"
  else if decide (etype entity = "EMBEDDED_LINK") then
    "<iframe width=" +:+ dq +:+ templateOf (data entity !! "width") +:+ dq
      +:+ " height=" +:+ dq +:+ templateOf (data entity !! "height") +:+ dq
      +:+ " src=" +:+ dq +:+ templateOf (data entity !! "src") +:+ dq
      +:+ " frameBorder=" +:+ dq +:+ "0" +:+ dq +:+ " allowFullScreen />"
  else text.

(** [getEntityMarkdown]: [customEntityTransform] is [None] when the caller
    passed no function.  Reading [entity.type] of an [undefined] entity
    throws. *)
Definition getEntityMarkdown (entity : option Entity) (text : string)
  (customEntityTransform : option CustomEntityTransform) : Outcome string :=
  let fallback :=
    match entity with
    | Some e => Ok (builtinEntityMarkdown e text)
    | None => Throws
    end in
  match customEntityTransform with
  | Some f =>
      match f entity text with
      | Some html => Ok html
      | None => fallback
      end
  | None => fallback
  end.

(** ** Range segmentation ([getSections], lines 219-259) *)

(** [sectionRanges.sort((s1, s2) => s1.offset - s2.offset)]: [Array.sort] is
    stable, ranges of equal offset keep their order. *)
Fixpoint insertByOffset (r : PreSection) (rs : list PreSection)
  : list PreSection :=
  match rs with
  | [] => [r]
  | r' :: rs' =>
      if ps_offset r <? ps_offset r' then r :: r' :: rs'
      else r' :: insertByOffset r rs'
  end.

Definition sortByOffset (rs : list PreSection) : list PreSection :=
  fold_left (fun acc r => insertByOffset r acc) rs [].

Definition entityPreSection (range : EntityRange) : PreSection :=
  {| ps_offset := er_offset range; ps_length := er_length range;
     ps_key := Some (er_key range); ps_type := ENTITY |}.

(** The callback of [sectionRanges.forEach], on the pair
    [(sections, lastOffset)]. *)
Definition sectionsStep (acc : list Sect * Z) (r : PreSection) : list Sect * Z :=
  let '(sections, lastOffset) := acc in
  let sections :=
    if lastOffset <? ps_offset r then
      sections ++ [{| start := lastOffset; end_ := ps_offset r - 1;
                      entityKey := None; stype := None |}]
    else sections in
  (sections ++ [{| start := ps_offset r; end_ := ps_offset r + ps_length r;
                   entityKey := ps_key r; stype := Some (ps_type r) |}],
   ps_offset r + ps_length r).

(** The part of [getSections] after the ranges are collected. *)
Definition sectionsOfRanges (textLength : Z) (sectionRanges : list PreSection)
  : list Sect :=
  let '(sections, lastOffset) :=
    fold_left sectionsStep (sortByOffset sectionRanges) ([], 0) in
  if lastOffset <? textLength then
    sections ++ [{| start := lastOffset; end_ := textLength;
                    entityKey := None; stype := None |}]
  else sections.

Definition getSections (block : Block) (hashConfig : HashConfig)
  : Outcome (list Sect) :=
  let? hashtags := getHashtagRanges (text block) hashConfig in
  Ok (sectionsOfRanges (JS.len (text block))
        (map entityPreSection (entityRanges block) ++ hashtags)).

(** ** Inline styles (lines 81-119) *)

Inductive InlineStyleNames :=
  | SUBSCRIPT | SUPERSCRIPT | CODE | STRIKETHROUGH | UNDERLINE | ITALIC
  | BOLD | BLOCKQUOTE | CODE_BLOCK
  | COLOR | BGCOLOR | FONTSIZE | FONTFAMILY | RAWCSS.

#[global] Instance InlineStyleNames_eq_dec : EqDecision InlineStyleNames.
Proof. solve_decision. Defined.

Definition BOOLEAN_INLINE_STYLE_NAMES : list InlineStyleNames :=
  [SUBSCRIPT; SUPERSCRIPT; CODE; STRIKETHROUGH; UNDERLINE; ITALIC; BOLD;
   BLOCKQUOTE; CODE_BLOCK].

Definition STRING_INLINE_STYLE_NAMES : list InlineStyleNames :=
  [COLOR; BGCOLOR; FONTSIZE; FONTFAMILY; RAWCSS].

Definition INLINE_STYLE_NAMES : list InlineStyleNames :=
  BOOLEAN_INLINE_STYLE_NAMES ++ STRING_INLINE_STYLE_NAMES.

(** The property name of a style. *)
Definition styleName (k : InlineStyleNames) : string :=
  match k with
  | SUBSCRIPT => "SUBSCRIPT" | SUPERSCRIPT => "SUPERSCRIPT" | CODE => "CODE"
  | STRIKETHROUGH => "STRIKETHROUGH" | UNDERLINE => "UNDERLINE"
  | ITALIC => "ITALIC" | BOLD => "BOLD" | BLOCKQUOTE => "BLOCKQUOTE"
  | CODE_BLOCK => "CODE-BLOCK"
  | COLOR => "COLOR" | BGCOLOR => "BGCOLOR" | FONTSIZE => "FONTSIZE"
  | FONTFAMILY => "FONTFAMILY" | RAWCSS => "RAWCSS"
  end.

(** What one slot of a style array holds: [true] for a boolean style, the
    style's value for a string style. *)
Inductive StyleValue :=
  | SBool (b : bool)
  | SStr (s : string).

#[global] Instance StyleValue_eq_dec : EqDecision StyleValue.
Proof. solve_decision. Defined.

(** [!!v] *)
Definition styleTruthy (v : StyleValue) : bool :=
  match v with
  | SBool b => b
  | SStr s => negb (String.eqb s "")
  end.

(** [`${v}`] *)
Definition styleTemplate (v : StyleValue) : string :=
  match v with
  | SBool true => "true"
  | SBool false => "false"
  | SStr s => s
  end.

(** [InlineStyles]: one sparse array per style name and the [length] field.
    The type of the source has every array present; types are erased at run
    time and [sameStyleAsPrevious] is exported, so [arrayOf] may answer [None]
    for an object that lacks the array: indexing it is what makes the body of
    the [try] block of [sameStyleAsPrevious] throw. *)
Record InlineStyles := {
  arrayOf : InlineStyleNames -> option (gmap Z StyleValue);
  islength : Z;
}.

(** [SingleInlineStyles]: the object built by [Object.fromEntries], its keys
    in insertion order. *)
Definition SingleInlineStyles : Type := list (InlineStyleNames * StyleValue).

(** [styles[name]] *)
Fixpoint styleOf (styles : SingleInlineStyles) (name : InlineStyleNames)
  : option StyleValue :=
  match styles with
  | [] => None
  | (k, v) :: styles' => if decide (k = name) then Some v else styleOf styles' name
  end.

Record StyleSection := {
  styles : SingleInlineStyles;
  ss_text : list string;
  ss_start : Z;
  ss_end : Z;
}.

(** A value of the style-token table: one string, or a pair. *)
Inductive StyleToken :=
  | Token (s : string)
  | TokenPair (l r : string).

(** [Config]; every option may be absent.  An entry of
    [customStyleTransform] may be present with the value [undefined]
    ([Some None] on lookup). *)
Record Config := {
  customStyleTransform : option (gmap string (option StyleToken));
  emptyLineBeforeBlock : option bool;
  printBreakLineLiteral : option bool;
  blockTypesMapping : option (gmap string string);
  rawCssInlineStyles : option bool;
}.

Definition noConfig : Config :=
  {| customStyleTransform := None; emptyLineBeforeBlock := None;
     printBreakLineLiteral := None; blockTypesMapping := None;
     rawCssInlineStyles := None |}.

(** [config?.field ?? false] and [config?.field] used as a condition. *)
Definition flag (config : option Config) (field : Config -> option bool) : bool :=
  match config with
  | Some c => default false (field c)
  | None => false
  end.

(** ** Style comparison ([sameStyleAsPrevious], lines 336-349) *)

(** [inlineStyles[key][index] === inlineStyles[key][index - 1]] *)
Definition sameAt (inlineStyles : InlineStyles) (index : Z)
  (key : InlineStyleNames) : Outcome bool :=
  match arrayOf inlineStyles key with
  | Some arr => Ok (bool_decide (arr !! index = arr !! (index - 1)))
  | None => Throws
  end.

(** [xs.every(f)]: stops at the first [false]. *)
Fixpoint everyM {A : Type} (f : A -> Outcome bool) (xs : list A) : Outcome bool :=
  match xs with
  | [] => Ok true
  | x :: xs' => let? b := f x in if b then everyM f xs' else Ok false
  end.

(** The body of the [try] block; the result is the final [sameStyled]. *)
Definition sameStyleTry (inlineStyles : InlineStyles)
  (matchKeys : list InlineStyleNames) (index : Z) : Outcome bool :=
  let sameStyled := true in
  if (0 <? index) && (index <? islength inlineStyles) then
    let? every := everyM (sameAt inlineStyles index) matchKeys in
    Ok (sameStyled && every)
  else Ok false.

(** [sameStyleAsPrevious]: the [catch] clause sets [sameStyled = false]. *)
Definition sameStyleAsPrevious (inlineStyles : InlineStyles)
  (matchKeys : list InlineStyleNames) (index : Z) : bool :=
  match sameStyleTry inlineStyles matchKeys index with
  | Ok sameStyled => sameStyled
  | Throws | Diverges => false
  end.

(** [getStylesAtOffset] (lines 354-363) *)
Definition getStylesAtOffset (inlineStyles : InlineStyles) (offset : Z)
  : Outcome SingleInlineStyles :=
  forEachM
    (fun entries key =>
       match arrayOf inlineStyles key with
       | None => Throws
       | Some arr =>
           match arr !! offset with
           | Some v => Ok (if styleTruthy v then entries ++ [(key, v)] else entries)
           | None => Ok entries
           end
       end)
    INLINE_STYLE_NAMES [].

(** ** Text escaping ([getSectionText], lines 395-412) *)

(** The image of one element of the [text] array. *)
Definition escapeChar (ch : string) : string :=
  if decide (ch = nl) then "\s\s" +:+ nl
  else if decide (ch = "&") then "&amp;"
  else if decide (ch = "<") then "&lt;"
  else if decide (ch = ">") then "&gt;"
  else ch.

Definition getSectionText (text : list string) : string :=
  match text with
  | [] => ""
  | _ => JS.join (map escapeChar text)
  end.

(** ** Markup of one style ([addInlineStyleMarkdown], lines 417-430) *)

Definition StyleTransform : Type := gmap string (option StyleToken).

Definition addInlineStyleMarkdown (style : string) (content : string)
  (styleTransform : StyleTransform) : string :=
  match styleTransform !! style with
  | None | Some None => content
  | Some (Some (Token value)) => value +:+ content +:+ value
  | Some (Some (TokenPair l r)) => l +:+ content +:+ r
  end.

(** [getStyleTagSectionMarkdown] (lines 436-438): a [reduce] over the style
    names, the text being the initial accumulator. *)
Definition getStyleTagSectionMarkdown (styles : list string) (text : string)
  (styleTransform : StyleTransform) : string :=
  fold_left (fun acc style => addInlineStyleMarkdown style acc styleTransform)
    styles text.

(** The table of [getSectionMarkdown] before [customStyleTransform] is
    spread over it. *)
Definition defaultStyleTransform : StyleTransform :=
  list_to_map
    [("BOLD", Some (Token "**"));
     ("ITALIC", Some (Token "*"));
     ("UNDERLINE", Some (Token "__"));
     ("STRIKETHROUGH", Some (Token "~~"));
     ("CODE", Some (Token "`"));
     ("CODE-BLOCK", Some (TokenPair ("```" +:+ nl) (nl +:+ "```")));
     ("BLOCKQUOTE", Some (TokenPair "> " ""));
     ("SUPERSCRIPT", Some (TokenPair "<sup>" "</sup>"));
     ("SUBSCRIPT", Some (TokenPair "<sub>" "</sub>"))].

(** [{...defaults, ...(config?.customStyleTransform || {})}] *)
Definition styleTransformOf (config : option Config) : StyleTransform :=
  match config with
  | Some c =>
      match customStyleTransform c with
      | Some custom => custom ∪ defaultStyleTransform
      | None => defaultStyleTransform
      end
  | None => defaultStyleTransform
  end.

(** ** The span of a string-style run ([addStylePropertyMarkdown],
    lines 444-484) *)

(** [styleString.match(/^(?:;+|)$/)]: nothing but semicolons. *)
Fixpoint onlySemicolons (s : string) : bool :=
  match s with
  | EmptyString => true
  | String c s' => if decide (c = ";"%char) then onlySemicolons s' else false
  end.

(** One turn of the loop over [STRING_INLINE_STYLE_NAMES], on the pair
    [(styleString, extra)]. *)
Definition stylePropertyStep (styles : SingleInlineStyles)
  (acc : string * string) (styleName : InlineStyleNames) : string * string :=
  let '(styleString, extra) := acc in
  match styleOf styles styleName with
  | None => acc
  | Some v =>
      let style := styleTemplate v in
      match styleName with
      | COLOR =>
          (styleString +:+ "color: " +:+ style +:+ ";",
           extra +:+ " data-color=" +:+ dq +:+ "true" +:+ dq)
      | BGCOLOR =>
          (styleString +:+ "background-color: " +:+ style +:+ ";",
           extra +:+ " data-bgcolor=" +:+ dq +:+ "true" +:+ dq)
      | FONTSIZE =>
          (styleString +:+ "font-size: " +:+ style +:+ "px;",
           extra +:+ " data-fontsize=" +:+ dq +:+ "true" +:+ dq)
      | FONTFAMILY =>
          (styleString +:+ "font-family: " +:+ style +:+ ";",
           extra +:+ " data-fontfamily=" +:+ dq +:+ "true" +:+ dq)
      | RAWCSS =>
          (styleString +:+ style,
           extra +:+ " data-rawcss=" +:+ dq +:+ "true" +:+ dq)
      | _ => acc
      end
  end.

Definition addStylePropertyMarkdown (styleSection : StyleSection) : string :=
  let content := getSectionText (ss_text styleSection) in
  match styles styleSection with
  | [] => content
  | _ =>
      let '(styleString, extra) :=
        fold_left (stylePropertyStep (styles styleSection))
          STRING_INLINE_STYLE_NAMES ("", "") in
      if onlySemicolons styleString then content
      else "<span style=" +:+ dq +:+ styleString +:+ dq +:+ extra +:+ ">"
             +:+ content +:+ "</span>"
  end.

(** ** White space at the ends of a block (lines 559-593) *)

(** [s.replace(pattern, replacement)] with a string pattern: the first
    occurrence only. *)
Fixpoint replaceFirst (s pattern replacement : string) : string :=
  if String.prefix pattern s then
    replacement +:+ JS.substrFrom s (JS.len pattern)
  else match s with
       | EmptyString => EmptyString
       | String c s' => String c (replaceFirst s' pattern replacement)
       end.

(** The loop of [trimLeadingZeros]; [rest] is [sectionText] from index [i]
    on, so [sectionText[i] === ' '] reads its head. *)
Fixpoint trimLeadingLoop (rest : string) (i : Z) (replacedText : string)
  : string :=
  match rest with
  | String c rest' =>
      if (i <? JS.len replacedText) && bool_decide (c = " "%char) then
        trimLeadingLoop rest' (i + 1) (replaceFirst replacedText " " "&nbsp;")
      else replacedText
  | EmptyString => replacedText
  end.

Definition trimLeadingZeros (sectionText : string) : string :=
  trimLeadingLoop sectionText 0 sectionText.

(** The loop of [trimTrailingZeros]: [n] is [i + 1], the loop runs while
    [i >= 0]. *)
Fixpoint trimTrailingLoop (n : nat) (replacedText : string) : string :=
  match n with
  | O => replacedText
  | S i' =>
      let i := Z.of_nat i' in
      if decide (JS.charAt replacedText i = " ") then
        trimTrailingLoop i'
          (JS.substring replacedText 0 i +:+ "&nbsp;"
             +:+ JS.substringFrom replacedText (i + 1))
      else replacedText
  end.

Definition trimTrailingZeros (sectionText : string) : string :=
  trimTrailingLoop (String.length sectionText) sectionText.

(** ** The converter proper

    [JSON.parse] belongs to the host.  [JSON_parseObject style] is [None]
    when [JSON.parse(style)] throws or yields something that is not an object;
    otherwise it lists [Object.entries] of the parsed object, each value as a
    template literal prints it. *)

Section Converter.

Variable JSON_parseObject : string -> option (list (string * string)).

(** [isJSONObjectString] (lines 264-276) *)
Definition isJSONObjectString (jsonString : string) : bool :=
  match JSON_parseObject jsonString with
  | Some _ => true
  | None => false
  end.

(** [k.replace(/[A-Z]/g, match => `-${match.toLowerCase()}`)] *)
Fixpoint kebabCase (k : string) : string :=
  match k with
  | EmptyString => EmptyString
  | String c k' =>
      let n := nat_of_ascii c in
      if ((65 <=? n) && (n <=? 90))%nat then
        String "-"%char (String (ascii_of_nat (n + 32)) (kebabCase k'))
      else String c (kebabCase k')
  end.

(** [xs.join(';')] *)
Fixpoint joinSemicolon (xs : list string) : string :=
  match xs with
  | [] => ""
  | [x] => x
  | x :: xs' => x +:+ ";" +:+ joinSemicolon xs'
  end.

(** The value stored for a raw CSS style (lines 320-324). *)
Definition rawCssOf (style : string) : string :=
  joinSemicolon
    (map (fun '(k, v) => kebabCase k +:+ ":" +:+ v)
       (default [] (JSON_parseObject style))) +:+ ";".

(** ** Style materialisation ([getStyleArrayForBlock], lines 281-330) *)

(** [inlineStyles[name][i] = v] *)
Definition setStyle (name : InlineStyleNames) (i : Z) (v : StyleValue)
  (inlineStyles : InlineStyles) : InlineStyles :=
  {| arrayOf := fun k =>
       if decide (k = name) then (fun arr => <[i := v]> arr) <$> arrayOf inlineStyles k
       else arrayOf inlineStyles k;
     islength := islength inlineStyles |}.

(** [BOOLEAN_INLINE_STYLE_NAMES.includes(style)], with the name found. *)
Definition booleanStyleNamed (style : string) : option InlineStyleNames :=
  List.find (fun k => String.eqb (styleName k) style) BOOLEAN_INLINE_STYLE_NAMES.

(** The body of the loop over the indices of one range. *)
Definition applyStyleAt (config : option Config) (style : string)
  (inlineStyles : InlineStyles) (i : Z) : InlineStyles :=
  if JS.startsWith style "color-" then
    setStyle COLOR i (SStr (JS.substringFrom style 6)) inlineStyles
  else if JS.startsWith style "bgcolor-" then
    setStyle BGCOLOR i (SStr (JS.substringFrom style 8)) inlineStyles
  else if JS.startsWith style "fontsize-" then
    setStyle FONTSIZE i (SStr (JS.substringFrom style 9)) inlineStyles
  else if JS.startsWith style "fontfamily-" then
    setStyle FONTFAMILY i (SStr (JS.substringFrom style 11)) inlineStyles
  else
    match booleanStyleNamed style with
    | Some name => setStyle name i (SBool true) inlineStyles
    | None =>
        if isJSONObjectString style && flag config rawCssInlineStyles then
          setStyle RAWCSS i (SStr (rawCssOf style)) inlineStyles
        else inlineStyles
    end.

(** [for (let i = offset; i < lastOffset; i++)] *)
Definition applyStyleRange (config : option Config) (inlineStyles : InlineStyles)
  (inlineStyleRange : InlineStyleRange) : InlineStyles :=
  fold_left (applyStyleAt config (isr_style inlineStyleRange))
    (seqZ (isr_offset inlineStyleRange) (isr_length inlineStyleRange))
    inlineStyles.

Definition emptyInlineStyles (length : Z) : InlineStyles :=
  {| arrayOf := fun _ => Some ∅; islength := length |}.

Definition getStyleArrayForBlock (block : Block) (config : option Config)
  : InlineStyles :=
  fold_left (applyStyleRange config) (inlineStyleRanges block)
    (emptyInlineStyles (JS.len (text block))).

(** ** Style segmentation ([getStyleSections], lines 369-390) *)

(** [styleSections[styleSections.length - 1].text.push(ch)] followed by
    [styleSections[styleSections.length - 1].end = end]; on an empty array
    the read of [.text] throws. *)
Fixpoint extendLast (styleSections : list StyleSection) (ch : string) (e : Z)
  : Outcome (list StyleSection) :=
  match styleSections with
  | [] => Throws
  | [s] =>
      Ok [{| styles := styles s; ss_text := ss_text s ++ [ch];
             ss_start := ss_start s; ss_end := e |}]
  | s :: rest => let? rest' := extendLast rest ch e in Ok (s :: rest')
  end.

(** The body of the loop of [getStyleSections]. *)
Definition styleSectionsStep (inlineStyles : InlineStyles) (text : string)
  (matchKeys : list InlineStyleNames) (start : Z)
  (styleSections : list StyleSection) (i : Z) : Outcome (list StyleSection) :=
  if decide (i = start) then
    let? styles := getStylesAtOffset inlineStyles i in
    Ok (styleSections ++
          [{| styles := styles; ss_text := [JS.charAt text i];
              ss_start := i; ss_end := i + 1 |}])
  else if sameStyleAsPrevious inlineStyles matchKeys i then
    extendLast styleSections (JS.charAt text i) (i + 1)
  else Ok styleSections.

Definition getStyleSections (block : Block) (matchKeys : list InlineStyleNames)
  (start end_ : Z) (config : option Config) : Outcome (list StyleSection) :=
  if 0 <? JS.len (text block) then
    let inlineStyles := getStyleArrayForBlock block config in
    forEachM (styleSectionsStep inlineStyles (text block) matchKeys start)
      (seqZ start (end_ - start)) []
  else Ok [].

(** ** Markup of one section ([getSectionMarkdown], lines 491-554) *)

Definition EntityMap : Type := gmap Z Entity.

(** The callback of [stylePropertySections.forEach]. *)
Definition stylePropertyText (stylePropertySections : list StyleSection)
  : string :=
  fold_left (fun acc s => acc +:+ addStylePropertyMarkdown s)
    stylePropertySections "".

(** The callback of [styleSections.forEach]. *)
Definition styleSectionStep (block : Block) (config : option Config)
  (styleTransform : StyleTransform) (styleSectionText : string)
  (styleSection : StyleSection) : Outcome string :=
  let? stylePropertySections :=
    getStyleSections block STRING_INLINE_STYLE_NAMES
      (ss_start styleSection) (ss_end styleSection) config in
  Ok (styleSectionText +:+
        getStyleTagSectionMarkdown
          (map (fun kv => styleName (fst kv)) (styles styleSection))
          (stylePropertyText stylePropertySections)
          styleTransform).

Definition getSectionMarkdown (block : Block) (entityMap : EntityMap)
  (section : Sect) (customEntityTransform : option CustomEntityTransform)
  (config : option Config) : Outcome string :=
  let styleTransform := styleTransformOf config in
  let? styleSections :=
    getStyleSections block BOOLEAN_INLINE_STYLE_NAMES
      (start section) (end_ section) config in
  let? styleSectionText :=
    forEachM (styleSectionStep block config styleTransform) styleSections "" in
  let sectionText := JS.join [styleSectionText] in
  match stype section with
  | Some ENTITY =>
      match entityKey section with
      | Some k =>
          getEntityMarkdown (entityMap !! k) sectionText customEntityTransform
      | None => Ok sectionText
      end
  | Some HASHTAG => Ok ("[" +:+ sectionText +:+ "](" +:+ sectionText +:+ ")")
  | None => Ok sectionText
  end.

(** ** Block content ([src/js/common.ts] and lines 141-148, 598-632) *)

(** [isEmptyString] on a string. *)
Definition isEmptyString (str : string) : bool :=
  (JS.len str =? 0) || (JS.len (JS.trim str) =? 0).

Definition isAtomicBlock (block : Block) : bool :=
  (0 <? Z.of_nat (length (entityRanges block))) && isEmptyString (text block).

(** The callback of [entitySections.forEach]; [count] is
    [entitySections.length]. *)
Definition blockSectionStep (block : Block) (entityMap : EntityMap)
  (customEntityTransform : option CustomEntityTransform)
  (config : option Config) (count : Z)
  (blockMarkdown : list string) (indexed : Z * Sect) : Outcome (list string) :=
  let '(index, section) := indexed in
  let? sectionText :=
    getSectionMarkdown block entityMap section customEntityTransform config in
  let sectionText :=
    if decide (index = 0) then trimLeadingZeros sectionText
    else if decide (index = count - 1) then trimTrailingZeros sectionText
    else sectionText in
  Ok (blockMarkdown ++ [sectionText]).

Definition getBlockContentMarkdown (block : Block) (entityMap : EntityMap)
  (hashConfig : HashConfig)
  (customEntityTransform : option CustomEntityTransform)
  (config : option Config) : Outcome string :=
  if isAtomicBlock block then
    match entityRanges block with
    | range :: _ =>
        getEntityMarkdown (entityMap !! er_key range) "" customEntityTransform
    | [] => Throws
    end
  else
    let? entitySections := getSections block hashConfig in
    let count := Z.of_nat (length entitySections) in
    let? blockMarkdown :=
      forEachM
        (blockSectionStep block entityMap customEntityTransform config count)
        (zip (seqZ 0 count) entitySections) [] in
    Ok (JS.join blockMarkdown).

(** ** Blocks and documents (lines 124-136, 659-742) *)

Definition defaultBlockTypesMapping : gmap string string :=
  list_to_map
    [("unstyled", ""); ("header-one", "# "); ("header-two", "## ");
     ("header-three", "### "); ("header-four", "#### ");
     ("header-five", "##### "); ("header-six", "###### ");
     ("unordered-list-item", "- "); ("ordered-list-item", "1. ");
     ("blockquote", "> "); ("code", "    ")].

(** The separator pushed after the block content. *)
Definition blockSeparator (config : option Config) : string :=
  if flag config emptyLineBeforeBlock then
    if flag config printBreakLineLiteral then "\n" +:+ nl +:+ nl
    else nl +:+ nl
  else
    if flag config printBreakLineLiteral then "\n" else nl.

Definition getBlockMarkdown (block : Block)
  (blockTypesMapping : gmap string string) (entityMap : EntityMap)
  (hashConfig : HashConfig)
  (customEntityTransform : option CustomEntityTransform)
  (config : option Config) : Outcome string :=
  let prefix :=
    match blockTypesMapping !! type block with
    | Some p => [p]
    | None => []
    end in
  let? blockContentMarkdown :=
    getBlockContentMarkdown block entityMap hashConfig customEntityTransform
      config in
  Ok (JS.join (prefix ++ [blockContentMarkdown; blockSeparator config])).

(** [isList] of [src/js/common.ts]. *)
Definition isList (blockType : string) : bool :=
  bool_decide (blockType = "unordered-list-item")
  || bool_decide (blockType = "ordered-list-item").

(** [' '.repeat(depth * 4)]; a negative count throws. *)
Definition getDepthPadding (depth : Z) : Outcome string :=
  if depth <? 0 then Throws else Ok (JS.repeat " " (Z.to_nat (depth * 4))).

Record EditorContent := {
  blocks : list Block;
  entityMap : EntityMap;
}.

(** [Partial<HashConfig>] *)
Record PartialHashConfig := {
  p_trigger : option string;
  p_separator : option string;
}.

(** The callback of [blocks.forEach] in [draftToMarkdown]. *)
Definition documentStep (blockTypesMapping : gmap string string)
  (entityMap : EntityMap) (hashConfig : HashConfig)
  (customEntityTransform : option CustomEntityTransform)
  (config : option Config) (markdown : list string) (block : Block)
  : Outcome (list string) :=
  let? content :=
    getBlockMarkdown block blockTypesMapping entityMap hashConfig
      customEntityTransform config in
  let? content :=
    if isList (type block) then
      let? padding := getDepthPadding (depth block) in Ok (padding +:+ content)
    else Ok content in
  Ok (markdown ++ [content]).

Definition draftToMarkdown (editorContent : option EditorContent)
  (hashConfig : PartialHashConfig)
  (customEntityTransform : option CustomEntityTransform)
  (config : option Config) : Outcome string :=
  let fullHashConfig :=
    {| trigger := default "#" (p_trigger hashConfig);
       separator := default " " (p_separator hashConfig) |} in
  match editorContent with
  | Some content =>
      let blockTypesMapping :=
        match config with
        | Some c => default ∅ (blockTypesMapping c) ∪ defaultBlockTypesMapping
        | None => defaultBlockTypesMapping
        end in
      let? markdown :=
        forEachM
          (documentStep blockTypesMapping (entityMap content) fullHashConfig
             customEntityTransform config)
          (blocks content) [] in
      Ok (JS.join markdown)
  | None => Ok ""
  end.

End Converter.

(** ** Reading the sections of a block

    The vocabulary of the coverage property: which sections hold the
    character at a given index. *)

(** [i] lies in the interval [[start, end_)] of the section. *)
Definition covers (section : Sect) (i : Z) : bool :=
  (start section <=? i) && (i <? end_ section).

(** The number of sections that hold the character at index [i]. *)
Definition coverCount (sections : list Sect) (i : Z) : nat :=
  length (List.filter (fun section => covers section i) sections).

(** The order in which [sortByOffset] leaves the ranges. *)
Definition offsetLe (r1 r2 : PreSection) : Prop := ps_offset r1 <= ps_offset r2.

(** ** Sample documents *)

Definition linkEntity : Entity :=
  {| etype := "LINK"; mutability := "MUTABLE";
     data := {[ "url" := DStr "http://x" ]} |}.

Definition imageEntity : Entity :=
  {| etype := "IMAGE"; mutability := "IMMUTABLE";
     data := {[ "src" := DStr "x.png"; "alt" := DStr "y" ]} |}.

(** A block of one space that stands for an image. *)
Definition spaceBlock : Block :=
  {| key := "b1"; text := " "; type := "atomic"; depth := 0;
     entityRanges := [{| er_offset := 0; er_length := 1; er_key := 0 |}];
     inlineStyleRanges :=
       [{| isr_offset := 0; isr_length := 1; isr_style := "BOLD" |}] |}.

(** A three-character block with an entity over its last character. *)
Definition gapBlock : Block :=
  {| key := "b1"; text := "abc"; type := "unstyled"; depth := 0;
     entityRanges := [{| er_offset := 2; er_length := 1; er_key := 0 |}];
     inlineStyleRanges := [] |}.

(** "ab", bold throughout, with a red "a". *)
Definition boldRedBlock : Block :=
  {| key := "b1"; text := "ab"; type := "unstyled"; depth := 0;
     entityRanges := [];
     inlineStyleRanges :=
       [{| isr_offset := 0; isr_length := 2; isr_style := "BOLD" |};
        {| isr_offset := 0; isr_length := 1; isr_style := "color-red" |}] |}.

(** "abc" with a bold "a". *)
Definition boldFirstBlock : Block :=
  {| key := "b1"; text := "abc"; type := "unstyled"; depth := 0;
     entityRanges := [];
     inlineStyleRanges :=
       [{| isr_offset := 0; isr_length := 1; isr_style := "BOLD" |}] |}.

(** A text with two spaces at either end and one inside. *)
Definition paddedBlock : Block :=
  {| key := "b1"; text := "  a b  "; type := "unstyled"; depth := 0;
     entityRanges := []; inlineStyleRanges := [] |}.

(** An object that has lost its BOLD array: comparing on BOLD throws inside
    the [try] block of [sameStyleAsPrevious]. *)
Definition stylesWithoutBold : InlineStyles :=
  {| arrayOf := fun k => if decide (k = BOLD) then None else Some ∅;
     islength := 3 |}.

(** ** Vocabulary of the further properties *)

(** The section [getSections] pushes for a range. *)
Definition rangeSection (r : PreSection) : Sect :=
  {| start := ps_offset r; end_ := ps_offset r + ps_length r;
     entityKey := ps_key r; stype := Some (ps_type r) |}.

(** A section that stands for an entity or a hashtag. *)
Definition isTagged (section : Sect) : bool :=
  match stype section with
  | Some _ => true
  | None => false
  end.

(** [i] lies inside the range. *)
Definition inRange (r : PreSection) (i : Z) : bool :=
  (ps_offset r <=? i) && (i <? ps_offset r + ps_length r).

(** The character at [i] stands just before a range and inside none. *)
Definition beforeRange (rs : list PreSection) (i : Z) : bool :=
  existsb (fun r => ps_offset r =? i + 1) rs
  && negb (existsb (fun r => inRange r i) rs).

(** Ranges in offset order that do not overlap, are not empty and end inside
    a text of [textLength] characters; [lastOffset] is where the previous
    one ended. *)
Fixpoint separated (textLength lastOffset : Z) (rs : list PreSection) : bool :=
  match rs with
  | [] => true
  | r :: rs' =>
      (lastOffset <=? ps_offset r) && (0 <? ps_length r)
      && (ps_offset r + ps_length r <=? textLength)
      && separated textLength (ps_offset r + ps_length r) rs'
  end.

(** What every range found by the hashtag scanner looks like. *)
Definition hashtagShaped (hashConfig : HashConfig) (r : PreSection) : Prop :=
  ps_type r = HASHTAG /\ ps_key r = None /\ 0 <= ps_offset r
  /\ JS.len (trigger hashConfig) < ps_length r.

Section StyleWrites.

Variable JSON_parseObject : string -> option (list (string * string)).

(** The array and the value that a range of style [style] writes, at each of
    its indices; [None] for a style that is ignored. *)
Definition styleWrite (config : option Config) (style : string)
  : option (InlineStyleNames * StyleValue) :=
  if JS.startsWith style "color-" then
    Some (COLOR, SStr (JS.substringFrom style 6))
  else if JS.startsWith style "bgcolor-" then
    Some (BGCOLOR, SStr (JS.substringFrom style 8))
  else if JS.startsWith style "fontsize-" then
    Some (FONTSIZE, SStr (JS.substringFrom style 9))
  else if JS.startsWith style "fontfamily-" then
    Some (FONTFAMILY, SStr (JS.substringFrom style 11))
  else
    match booleanStyleNamed style with
    | Some name => Some (name, SBool true)
    | None =>
        if isJSONObjectString JSON_parseObject style
           && flag config rawCssInlineStyles then
          Some (RAWCSS, SStr (rawCssOf JSON_parseObject style))
        else None
    end.

(** [i] lies inside the style range. *)
Definition rangeHolds (r : InlineStyleRange) (i : Z) : bool :=
  (isr_offset r <=? i) && (i <? isr_offset r + isr_length r).

(** One range seen by a reader of slot [i] of the array [name]: the range
    replaces what the slot held when it holds [i] and writes to [name]. *)
Definition writeOver (config : option Config) (name : InlineStyleNames)
  (i : Z) (held : option StyleValue) (r : InlineStyleRange)
  : option StyleValue :=
  if rangeHolds r i then
    match styleWrite config (isr_style r) with
    | Some (k, v) => if decide (k = name) then Some v else held
    | None => held
    end
  else held.

(** The value of the last range, in the order of the array of ranges, that
    holds [i] and writes to [name]; [None] when there is none. *)
Definition lastWrite (config : option Config) (ranges : list InlineStyleRange)
  (name : InlineStyleNames) (i : Z) : option StyleValue :=
  fold_left (writeOver config name i) ranges None.

End StyleWrites.

(** The value slot [offset] of the array [name] holds, when it is truthy. *)
Definition heldAt (inlineStyles : InlineStyles) (offset : Z)
  (name : InlineStyleNames) : option StyleValue :=
  match arrayOf inlineStyles name with
  | Some arr =>
      match arr !! offset with
      | Some v => if styleTruthy v then Some v else None
      | None => None
      end
  | None => None
  end.

(** The characters of a string, each as a string of its own: what the
    [text] arrays of style runs hold. *)
Definition chars (s : string) : list string :=
  map (fun c => String c EmptyString) (list_ascii_of_string s).

(** The characters of [blockText] at the indices [first, first + count). *)
Definition charsFrom (blockText : string) (first count : Z) : list string :=
  map (JS.charAt blockText) (seqZ first count).

(** The block at another depth. *)
Definition withDepth (d : Z) (block : Block) : Block :=
  {| key := key block; text := text block; type := type block; depth := d;
     entityRanges := entityRanges block;
     inlineStyleRanges := inlineStyleRanges block |}.

(** * Properties *)

(** ** Strings *)

Lemma length_substring (s : string) (n m : nat) :
  String.length (String.substring n m s) = Nat.min m (String.length s - n).
Proof.
  revert n m; induction s as [|c s IH]; intros [|n] [|m];
    cbn [String.length String.substring]; rewrite ?IH; lia.
Qed.

Lemma substring_all (s : string) :
  String.substring 0 (String.length s) s = s.
Proof. induction s as [|c s IH]; simpl; [reflexivity | now rewrite IH]. Qed.

Lemma append_cons (c : ascii) (s1 s2 : string) :
  String c s1 +:+ s2 = String c (s1 +:+ s2).
Proof. reflexivity. Qed.

Lemma append_assoc (s1 s2 s3 : string) :
  (s1 +:+ s2) +:+ s3 = s1 +:+ (s2 +:+ s3).
Proof.
  induction s1 as [|c s1 IH]; [reflexivity|].
  rewrite !append_cons. now f_equal.
Qed.

Lemma append_empty_r (s : string) : s +:+ EmptyString = s.
Proof.
  induction s as [|c s IH]; [reflexivity|]. rewrite append_cons. now f_equal.
Qed.

Lemma length_append (s1 s2 : string) :
  String.length (s1 +:+ s2) = (String.length s1 + String.length s2)%nat.
Proof.
  induction s1 as [|c s1 IH]; [reflexivity|].
  rewrite append_cons. cbn [String.length]. now rewrite IH.
Qed.

Lemma len_nonneg (s : string) : 0 <= JS.len s.
Proof. unfold JS.len. lia. Qed.

Lemma len_substrFrom (s : string) (k : Z) :
  0 <= k -> JS.len (JS.substrFrom s k) = Z.max 0 (JS.len s - k).
Proof.
  intros Hk. unfold JS.substrFrom, JS.substr, JS.len.
  destruct (Z.ltb_spec k 0) as [?|_]; [lia|].
  rewrite length_substring. lia.
Qed.

Lemma substrFrom_0 (s : string) : JS.substrFrom s 0 = s.
Proof.
  unfold JS.substrFrom, JS.substr, JS.len. simpl.
  replace (Z.to_nat (Z.min 0 (Z.of_nat (String.length s)))) with 0%nat by lia.
  replace (Z.to_nat (Z.max (Z.of_nat (String.length s)) 0))
    with (String.length s) by lia.
  apply substring_all.
Qed.

Lemma indexOfFrom_lower (s p : string) (k : Z) :
  JS.indexOfFrom k s p = -1 \/ k <= JS.indexOfFrom k s p.
Proof.
  revert k; induction s as [|c s IH]; intros k; cbn [JS.indexOfFrom].
  - destruct (String.prefix p EmptyString); [right; lia | left; reflexivity].
  - destruct (String.prefix p (String c s)); [right; lia|].
    destruct (IH (k + 1)) as [->|H]; [now left | right; lia].
Qed.

Lemma len_empty_iff (s : string) : JS.len s = 0 <-> s = EmptyString.
Proof.
  unfold JS.len. split.
  - intros H. destruct s; [reflexivity|]. cbn [String.length] in H. lia.
  - now intros ->.
Qed.

(** ** Hashtag detection *)

Section HashtagScan.

Variable hashConfig : HashConfig.

(** With a non-empty trigger, a run of the loop body either shortens the
    working text or leaves [startIndex] negative. *)
Lemma hashScanBody_progress (st : HashScan) :
  trigger hashConfig <> EmptyString ->
  hashScanCond st = true ->
  (String.length (hs_text (hashScanBody hashConfig st))
     < String.length (hs_text st))%nat
  \/ hashScanCond (hashScanBody hashConfig st) = false.
Proof.
  intros Htrig Hcond.
  assert (Hlen : 0 < JS.len (trigger hashConfig)).
  { pose proof (len_nonneg (trigger hashConfig)).
    destruct (decide (JS.len (trigger hashConfig) = 0)) as [E|?]; [|lia].
    apply len_empty_iff in E. contradiction. }
  unfold hashScanCond in Hcond. apply andb_prop in Hcond as [Hpos _].
  apply Z.ltb_lt in Hpos.
  unfold hashScanBody.
  destruct (JS.startsWith (hs_text st) (trigger hashConfig)).
  - left. simpl.
    pose proof (len_substrFrom (hs_text st) (JS.len (trigger hashConfig))) as L.
    unfold JS.len in *. lia.
  - set (si := JS.indexOf (hs_text st) (separator hashConfig +:+ trigger hashConfig)).
    destruct (Z.leb_spec 0 si) as [Hsi|Hsi].
    + left.
      destruct (Z.leb_spec 0 si) as [_|?]; [|lia]. simpl.
      assert (0 < JS.len (separator hashConfig +:+ trigger hashConfig)).
      { unfold JS.len in *. rewrite length_append. lia. }
      pose proof (len_substrFrom (hs_text st)
        (si + JS.len (separator hashConfig +:+ trigger hashConfig))) as L.
      unfold JS.len in *. lia.
    + right.
      destruct (Z.leb_spec 0 si) as [?|_]; [lia|]. simpl.
      unfold hashScanCond. simpl.
      destruct (Z.leb_spec 0 si) as [?|_]; [lia|]. apply andb_false_r.
Qed.

(** Once the loop has ended within some fuel, more fuel changes nothing. *)
Lemma hashScanLoop_mono (fuel fuel' : nat) (st : HashScan) r :
  (fuel <= fuel')%nat ->
  hashScanLoop fuel hashConfig st = Some r ->
  hashScanLoop fuel' hashConfig st = Some r.
Proof.
  revert fuel' st; induction fuel as [|fuel IH]; intros fuel' st Hle H.
  - simpl in H. destruct fuel'; simpl; destruct (hashScanCond st); done.
  - destruct fuel' as [|fuel']; [lia|]. simpl in *.
    destruct (hashScanCond st); [|done]. apply IH; [lia | done].
Qed.

(** [String.length text] runs are enough for a non-empty trigger. *)
Lemma hashScanLoop_enough_fuel (fuel : nat) (st : HashScan) :
  trigger hashConfig <> EmptyString ->
  (String.length (hs_text st) <= fuel)%nat ->
  is_Some (hashScanLoop fuel hashConfig st).
Proof.
  intros Htrig. revert st; induction fuel as [|fuel IH]; intros st Hle.
  - simpl. destruct (hashScanCond st) eqn:Hc; [|by eexists].
    unfold hashScanCond in Hc. apply andb_prop in Hc as [Hpos _].
    apply Z.ltb_lt in Hpos. unfold JS.len in Hpos. lia.
  - simpl. destruct (hashScanCond st) eqn:Hc; [|by eexists].
    destruct (hashScanBody_progress st Htrig Hc) as [Hlt|Hstop].
    + apply IH. lia.
    + destruct fuel; simpl; rewrite Hstop; by eexists.
Qed.

(** With an empty trigger the loop condition holds for ever once the text
    is not empty. *)
Lemma hashScanLoop_empty_trigger (fuel : nat) (st : HashScan) :
  trigger hashConfig = EmptyString ->
  hashScanCond st = true ->
  hashScanLoop fuel hashConfig st = None.
Proof.
  intros Htrig. revert st; induction fuel as [|fuel IH]; intros st Hc; simpl;
    rewrite Hc; [done|].
  apply IH. unfold hashScanCond in *. apply andb_prop in Hc as [Hpos _].
  unfold hashScanBody. rewrite Htrig.
  unfold JS.startsWith.
  replace (String.prefix EmptyString (hs_text st)) with true
    by (now destruct (hs_text st)).
  rewrite substrFrom_0. simpl. now rewrite Hpos.
Qed.

End HashtagScan.

(** C10: with a non-empty trigger the hashtag scanner terminates.  Every run
    of the loop body either strictly shortens the working text or makes the
    loop condition false, so the loop ends within [String.length text] runs
    and [getHashtagRanges] returns a list of PreSections. *)
Theorem getHashtagRanges_terminates (text : string) (hashConfig : HashConfig) :
  trigger hashConfig <> EmptyString ->
  (forall st : HashScan,
      hashScanCond st = true ->
      (String.length (hs_text (hashScanBody hashConfig st))
         < String.length (hs_text st))%nat
      \/ hashScanCond (hashScanBody hashConfig st) = false)
  /\ exists preSections : list PreSection,
       getHashtagRanges text hashConfig = Ok preSections
       /\ forall fuel : nat,
            (String.length text <= fuel)%nat ->
            getHashtagRangesFuel fuel text hashConfig = Some preSections.
Proof.
  intros Htrig. split.
  - intros st Hc. now apply hashScanBody_progress.
  - destruct (hashScanLoop_enough_fuel hashConfig (String.length text)
                (hashScanInit text) Htrig) as [r Hr]; [simpl; lia|].
    exists r. split.
    + unfold getHashtagRanges, getHashtagRangesFuel. now rewrite Hr.
    + intros fuel Hle. unfold getHashtagRangesFuel.
      eapply hashScanLoop_mono; eauto.
Qed.

Lemma getHashtagRanges_terminates_witness :
  trigger defaultHashConfig <> EmptyString
  /\ exists preSections : list PreSection,
       getHashtagRanges "a #b ##c" defaultHashConfig = Ok preSections.
Proof.
  assert (H : trigger defaultHashConfig <> EmptyString) by discriminate.
  split; [exact H|].
  destruct (getHashtagRanges_terminates "a #b ##c" defaultHashConfig H)
    as [_ [r [Hr _]]].
  exists r. exact Hr.
Defined.

(** C5: in the text "hello #world foo", with trigger "#" and separator " ",
    the scanner finds exactly one hashtag, at offset 6 and of length 6, which
    is the substring "#world". *)
Theorem getHashtagRanges_hello_world :
  getHashtagRanges "hello #world foo" {| trigger := "#"; separator := " " |}
  = Ok [{| ps_offset := 6; ps_length := 6; ps_key := None;
           ps_type := HASHTAG |}]
  /\ JS.substr "hello #world foo" 6 6 = "#world".
Proof. split; vm_compute; reflexivity. Qed.

(** ** Text escaping *)

Lemma join_app (xs ys : list string) :
  JS.join (xs ++ ys) = JS.join xs +:+ JS.join ys.
Proof.
  induction xs as [|x xs IH]; [reflexivity|].
  change (x +:+ JS.join (xs ++ ys) = (x +:+ JS.join xs) +:+ JS.join ys).
  now rewrite IH, append_assoc.
Qed.

Lemma getSectionText_join (text : list string) :
  getSectionText text = JS.join (map escapeChar text).
Proof. now destruct text. Qed.

(** C6, as the code has it: the escaper maps each element of the character
    array on its own and concatenates the images in order.  A newline becomes
    the five characters backslash, s, backslash, s, newline; '&' becomes
    '&amp;', '<' becomes '&lt;', '>' becomes '&gt;'; every other character
    is passed through. *)
Theorem getSectionText_per_character :
  getSectionText [] = EmptyString
  /\ (forall t1 t2 : list string,
        getSectionText (t1 ++ t2) = getSectionText t1 +:+ getSectionText t2)
  /\ getSectionText [nl] = "\s\s" +:+ nl
  /\ getSectionText ["&"] = "&amp;"
  /\ getSectionText ["<"] = "&lt;"
  /\ getSectionText [">"] = "&gt;"
  /\ (forall ch : string,
        ch <> nl -> ch <> "&" -> ch <> "<" -> ch <> ">" ->
        getSectionText [ch] = ch).
Proof.
  repeat split; try reflexivity.
  - intros t1 t2. rewrite !getSectionText_join, map_app. apply join_app.
  - intros ch H1 H2 H3 H4. rewrite getSectionText_join. simpl.
    rewrite append_empty_r. unfold escapeChar.
    repeat (destruct (decide _) as [?|_]; [contradiction|]). reflexivity.
Qed.

Lemma getSectionText_per_character_witness :
  getSectionText ["a"] = "a"
  /\ getSectionText (["a"; nl] ++ ["<"]) = getSectionText ["a"; nl] +:+ "&lt;".
Proof.
  destruct getSectionText_per_character as (_ & Happ & _ & _ & Hlt & _ & Hid).
  split.
  - apply Hid; discriminate.
  - rewrite Happ, Hlt. reflexivity.
Defined.

(** The wording of C6 fails on the newline: its image is not two spaces
    followed by a newline. *)
Lemma getSectionText_newline_not_two_spaces :
  String.eqb (getSectionText [nl]) ("  " +:+ nl) = false.
Proof. vm_compute. reflexivity. Qed.

(** ** Entities *)

(** C7: when the caller's [customEntityTransform] answers a defined string
    for the entity and the text, [getEntityMarkdown] returns that string,
    whatever the entity is: of a type with built-in handling, of an unknown
    type, or absent from the entity map. *)
Theorem getEntityMarkdown_custom_first (entity : option Entity) (text : string)
  (customEntityTransform : CustomEntityTransform) (html : string) :
  customEntityTransform entity text = Some html ->
  getEntityMarkdown entity text (Some customEntityTransform) = Ok html.
Proof. intros H. unfold getEntityMarkdown. now rewrite H. Qed.

Lemma getEntityMarkdown_custom_first_witness :
  (fun (_ : option Entity) (t : string) => Some ("<" +:+ t +:+ ">"))
    (Some linkEntity) "go" = Some "<go>"
  /\ getEntityMarkdown (Some linkEntity) "go"
       (Some (fun _ t => Some ("<" +:+ t +:+ ">"))) = Ok "<go>".
Proof.
  split; [reflexivity|].
  apply (getEntityMarkdown_custom_first (Some linkEntity) "go"
           (fun _ t => Some ("<" +:+ t +:+ ">")) "<go>").
  reflexivity.
Defined.

(** ** Style comparison *)

Lemma everyM_true_iff {A : Type} (f : A -> Outcome bool) (xs : list A) :
  everyM f xs = Ok true <-> forall x, x ∈ xs -> f x = Ok true.
Proof.
  induction xs as [|x xs IH]; simpl.
  - split; [intros _ y Hy; inversion Hy | reflexivity].
  - split.
    + intros H y Hy. destruct (f x) as [[|]| |] eqn:Hx; simpl in H; try discriminate.
      apply elem_of_cons in Hy as [->|Hy]; [exact Hx | now apply IH].
    + intros H. rewrite (H x) by apply list_elem_of_here. simpl.
      apply IH. intros y Hy. apply H. now apply list_elem_of_further.
Qed.

Lemma sameStyleAsPrevious_true_iff (inlineStyles : InlineStyles)
  (matchKeys : list InlineStyleNames) (index : Z) :
  sameStyleAsPrevious inlineStyles matchKeys index = true
  <-> 0 < index < islength inlineStyles
      /\ forall key, key ∈ matchKeys -> sameAt inlineStyles index key = Ok true.
Proof.
  unfold sameStyleAsPrevious, sameStyleTry.
  destruct (Z.ltb_spec 0 index) as [H0|H0];
    destruct (Z.ltb_spec index (islength inlineStyles)) as [H1|H1]; simpl;
    try (split; [discriminate | intros [? _]; lia]).
  rewrite <- everyM_true_iff.
  destruct (everyM (sameAt inlineStyles index) matchKeys) as [[|]| |]; simpl;
    split; try discriminate; try (intros [_ ?]; discriminate); auto.
Qed.

(** [sameStyleAsPrevious] is a total function to booleans.  It answers
    [false] when the index is out of bounds, when the comparison of some key
    does not yield [true] (the values differ, or reading them throws), and
    when the body of its [try] block throws. *)
Lemma sameStyleAsPrevious_defensive (inlineStyles : InlineStyles)
  (matchKeys : list InlineStyleNames) (index : Z) :
  (exists sameStyled : bool,
      sameStyleAsPrevious inlineStyles matchKeys index = sameStyled)
  /\ (index <= 0 \/ islength inlineStyles <= index ->
      sameStyleAsPrevious inlineStyles matchKeys index = false)
  /\ (forall key : InlineStyleNames,
        key ∈ matchKeys ->
        sameAt inlineStyles index key <> Ok true ->
        sameStyleAsPrevious inlineStyles matchKeys index = false)
  /\ (sameStyleTry inlineStyles matchKeys index = Throws ->
      sameStyleAsPrevious inlineStyles matchKeys index = false).
Proof.
  pose proof (sameStyleAsPrevious_true_iff inlineStyles matchKeys index) as Hiff.
  split; [eauto|]. split; [|split].
  - intros Hout. apply not_true_is_false. intros Ht.
    apply Hiff in Ht as [? _]. lia.
  - intros key Hin Hne. apply not_true_is_false. intros Ht.
    apply Hiff in Ht as [_ Hall]. apply Hne. now apply Hall.
  - intros Hthrow. unfold sameStyleAsPrevious. now rewrite Hthrow.
Qed.

(** On an object without its BOLD array: an index past the end, and a
    comparison that throws. *)
Example sameStyleAsPrevious_lost_array :
  sameStyleAsPrevious stylesWithoutBold [ITALIC; BOLD] 3 = false
  /\ sameStyleAsPrevious stylesWithoutBold [ITALIC; BOLD] 1 = false
  /\ sameStyleTry stylesWithoutBold [ITALIC; BOLD] 1 = Throws.
Proof.
  split; [|split].
  - apply (proj1 (proj2
      (sameStyleAsPrevious_defensive stylesWithoutBold [ITALIC; BOLD] 3))).
    right. simpl. lia.
  - apply (proj1 (proj2 (proj2
      (sameStyleAsPrevious_defensive stylesWithoutBold [ITALIC; BOLD] 1)))
      BOLD).
    + apply list_elem_of_further, list_elem_of_here.
    + discriminate.
  - reflexivity.
Qed.

(** ** Atomic blocks *)

Lemma trimStart_whitespace (s : string) :
  Forall (fun c => JS.isWhiteSpace c = true) (list_ascii_of_string s) ->
  JS.trimStart s = EmptyString.
Proof.
  induction s as [|c s IH]; [reflexivity|].
  intros H. inversion H as [|? ? Hc Hs]; subst.
  cbn [JS.trimStart]. rewrite Hc. now apply IH.
Qed.

Lemma isEmptyString_whitespace (s : string) :
  Forall (fun c => JS.isWhiteSpace c = true) (list_ascii_of_string s) ->
  isEmptyString s = true.
Proof.
  intros H. unfold isEmptyString, JS.trim.
  rewrite (trimStart_whitespace s H). apply orb_true_r.
Qed.

(** C9: a block whose text is not empty but is white space only, and which
    has at least one entity range, is atomic: whatever the hash
    configuration, the style ranges and the configuration are, its content is
    the entity renderer applied to the entity of the first entity range and
    the empty string. *)
Theorem whitespace_block_is_atomic
  (JSON_parseObject : string -> option (list (string * string)))
  (block : Block) (entityMap : EntityMap) (hashConfig : HashConfig)
  (customEntityTransform : option CustomEntityTransform)
  (config : option Config) (range : EntityRange) (others : list EntityRange) :
  text block <> EmptyString ->
  Forall (fun c => JS.isWhiteSpace c = true) (list_ascii_of_string (text block)) ->
  entityRanges block = range :: others ->
  isAtomicBlock block = true
  /\ getBlockContentMarkdown JSON_parseObject block entityMap hashConfig
       customEntityTransform config
     = getEntityMarkdown (entityMap !! er_key range) EmptyString
         customEntityTransform.
Proof.
  intros _ Hws Hranges.
  assert (Hatomic : isAtomicBlock block = true).
  { unfold isAtomicBlock. rewrite Hranges, (isEmptyString_whitespace _ Hws).
    reflexivity. }
  split; [exact Hatomic|].
  unfold getBlockContentMarkdown. now rewrite Hatomic, Hranges.
Qed.

Lemma whitespace_block_is_atomic_witness :
  getBlockContentMarkdown (fun _ => None) spaceBlock {[ 0 := imageEntity ]}
    {| trigger := EmptyString; separator := " " |} None None
  = Ok "![y](x.png)".
Proof.
  refine (eq_trans
    (proj2 (whitespace_block_is_atomic (fun _ => None) spaceBlock
              {[ 0 := imageEntity ]}
              {| trigger := EmptyString; separator := " " |} None None
              {| er_offset := 0; er_length := 1; er_key := 0 |} [] _ _ _)) _).
  - discriminate.
  - repeat constructor.
  - reflexivity.
  - vm_compute. reflexivity.
Defined.

(** ** Range segmentation *)

(** *** Sorting by offset *)

Lemma insertByOffset_Forall (P : PreSection -> Prop) (r : PreSection)
  (rs : list PreSection) :
  P r -> Forall P rs -> Forall P (insertByOffset r rs).
Proof.
  intros Hr. induction 1 as [|r' rs Hr' Hrs IH]; simpl.
  - now repeat constructor.
  - destruct (ps_offset r <? ps_offset r'); repeat constructor; auto.
Qed.

Lemma insertByOffset_sorted (r : PreSection) (rs : list PreSection) :
  StronglySorted offsetLe rs -> StronglySorted offsetLe (insertByOffset r rs).
Proof.
  induction 1 as [|r' rs Hsorted IH Hall]; simpl.
  - repeat constructor.
  - destruct (Z.ltb_spec (ps_offset r) (ps_offset r')) as [Hlt|Hge].
    + constructor; [now constructor|].
      constructor; [unfold offsetLe; lia|].
      eapply Forall_impl; [exact Hall|]. unfold offsetLe. intros; lia.
    + constructor; [exact IH|].
      apply insertByOffset_Forall; [unfold offsetLe; lia | exact Hall].
Qed.

Lemma sortByOffset_spec (P : PreSection -> Prop) (rs : list PreSection) :
  Forall P rs ->
  StronglySorted offsetLe (sortByOffset rs) /\ Forall P (sortByOffset rs).
Proof.
  unfold sortByOffset.
  assert (G : forall acc,
    StronglySorted offsetLe acc -> Forall P acc -> Forall P rs ->
    StronglySorted offsetLe (fold_left (fun acc r => insertByOffset r acc) rs acc)
    /\ Forall P (fold_left (fun acc r => insertByOffset r acc) rs acc)).
  { induction rs as [|r rs IH]; intros acc Hs Hp Hrs; simpl; [auto|].
    inversion Hrs; subst.
    apply IH; auto using insertByOffset_sorted, insertByOffset_Forall. }
  intros H. apply G; [constructor | constructor | exact H].
Qed.

(** *** The character before the first range *)

Lemma coverCount_app (xs ys : list Sect) (i : Z) :
  coverCount (xs ++ ys) i = (coverCount xs i + coverCount ys i)%nat.
Proof. unfold coverCount. now rewrite List.filter_app, length_app. Qed.

Lemma coverCount_one (section : Sect) (i : Z) :
  coverCount [section] i = if covers section i then 1%nat else 0%nat.
Proof. unfold coverCount. simpl. now destruct (covers section i). Qed.

(** Ranges that start at [m] or later, seen after [lastOffset] has reached
    [m], add no section that holds the index [m - 1]. *)
Lemma sectionsStep_keeps_hole (m : Z) (rs : list PreSection)
  (sections : list Sect) (lastOffset : Z) :
  Forall (fun r => m <= ps_offset r /\ 0 <= ps_length r) rs ->
  m <= lastOffset ->
  coverCount sections (m - 1) = 0%nat ->
  coverCount (fold_left sectionsStep rs (sections, lastOffset)).1 (m - 1) = 0%nat
  /\ m <= (fold_left sectionsStep rs (sections, lastOffset)).2.
Proof.
  intros Hrs. revert sections lastOffset.
  induction Hrs as [|r rs [Hoff Hlen] _ IH]; intros sections lastOffset Hlast Hc;
    simpl; [auto|].
  apply IH; [lia|].
  rewrite coverCount_app, coverCount_one.
  destruct (lastOffset <? ps_offset r).
  - rewrite coverCount_app, coverCount_one, Hc. unfold covers. simpl.
    destruct (Z.leb_spec lastOffset (m - 1)); [lia|].
    destruct (Z.leb_spec (ps_offset r) (m - 1)); [lia|]. reflexivity.
  - rewrite Hc. unfold covers. simpl.
    destruct (Z.leb_spec (ps_offset r) (m - 1)); [lia|]. reflexivity.
Qed.

(** Whenever the first range in offset order starts after index 0 and no
    range has a negative length, the character just before that range lies in
    no section: the gap section stops one short of it. *)
Lemma sectionsOfRanges_hole_before_first_range (textLength : Z)
  (sectionRanges rest : list PreSection) (r : PreSection) :
  sortByOffset sectionRanges = r :: rest ->
  0 < ps_offset r ->
  Forall (fun q => 0 <= ps_length q) sectionRanges ->
  coverCount (sectionsOfRanges textLength sectionRanges) (ps_offset r - 1)
  = 0%nat.
Proof.
  intros Hsort Hpos Hlen.
  destruct (sortByOffset_spec _ sectionRanges Hlen) as [Hsorted Hlen'].
  unfold sectionsOfRanges. rewrite Hsort in *.
  inversion Hsorted as [|? ? _ Hall]; subst.
  inversion Hlen' as [|? ? Hr Hrest]; subst.
  cbn [fold_left]. unfold sectionsStep at 2. cbn [app].
  destruct (Z.ltb_spec 0 (ps_offset r)) as [_|?]; [|lia].
  destruct (sectionsStep_keeps_hole (ps_offset r) rest
              [{| start := 0; end_ := ps_offset r - 1; entityKey := None;
                  stype := None |};
               {| start := ps_offset r; end_ := ps_offset r + ps_length r;
                  entityKey := ps_key r; stype := Some (ps_type r) |}]
              (ps_offset r + ps_length r)) as [Hc Hlast].
  - rewrite Forall_forall in Hall, Hrest. apply Forall_forall.
    intros q Hq. split; [apply (Hall q Hq) | apply (Hrest q Hq)].
  - lia.
  - unfold coverCount, covers. simpl.
    destruct (Z.leb_spec 0 (ps_offset r - 1)); simpl;
      destruct (Z.ltb_spec (ps_offset r - 1) (ps_offset r - 1)); simpl; try lia;
      destruct (Z.leb_spec (ps_offset r) (ps_offset r - 1)); simpl; lia.
  - destruct (fold_left sectionsStep rest _) as [sections lastOffset] eqn:E.
    simpl in Hc, Hlast.
    destruct (lastOffset <? textLength); [|exact Hc].
    rewrite coverCount_app, coverCount_one, Hc. unfold covers. simpl.
    destruct (Z.leb_spec lastOffset (ps_offset r - 1)); [lia|]. reflexivity.
Qed.

(** C1 on the code: on the block "abc" with one entity range over [2,3),
    [getSections] gives the gap section [0,1) and the entity section [2,3).
    The gap section ends at [r.offset - 1], so the character at index 1 lies
    in no section. *)
Theorem getSections_gap_misses_last_character :
  getSections gapBlock defaultHashConfig
  = Ok [{| start := 0; end_ := 1; entityKey := None; stype := None |};
        {| start := 2; end_ := 3; entityKey := Some 0; stype := Some ENTITY |}]
  /\ (forall sections,
        getSections gapBlock defaultHashConfig = Ok sections ->
        coverCount sections 0 = 1%nat
        /\ coverCount sections 1 = 0%nat
        /\ coverCount sections 2 = 1%nat).
Proof.
  split; [vm_compute; reflexivity|].
  intros sections H. vm_compute in H. injection H as <-.
  vm_compute. auto.
Qed.

(** ** Style segmentation *)

Lemma extendLast_length (styleSections styleSections' : list StyleSection)
  (ch : string) (e : Z) :
  extendLast styleSections ch e = Ok styleSections' ->
  length styleSections' = length styleSections.
Proof.
  revert styleSections'; induction styleSections as [|s rest IH];
    intros out H; [discriminate|].
  destruct rest as [|s' rest].
  - injection H as <-. reflexivity.
  - cbn [extendLast] in H. cbn [extendLast] in IH.
    destruct (match rest with
              | [] => _
              | _ :: _ => _
              end) as [rest'| |] eqn:E; try discriminate.
    injection H as <-. simpl. f_equal. now apply IH.
Qed.

(** Past the first index the loop never adds a run. *)
Lemma styleSections_no_new_run (inlineStyles : InlineStyles)
  (blockText : string) (matchKeys : list InlineStyleNames) (first : Z)
  (indices : list Z) (styleSections styleSections' : list StyleSection) :
  first ∉ indices ->
  forEachM (styleSectionsStep inlineStyles blockText matchKeys first) indices
    styleSections = Ok styleSections' ->
  length styleSections' = length styleSections.
Proof.
  revert styleSections; induction indices as [|i indices IH];
    intros acc Hnot H.
  - injection H as <-. reflexivity.
  - apply not_elem_of_cons in Hnot as [Hne Hnot].
    cbn [forEachM] in H. unfold styleSectionsStep at 1 in H.
    destruct (decide (i = first)) as [->|_]; [contradiction|].
    destruct (sameStyleAsPrevious inlineStyles matchKeys i).
    + destruct (extendLast acc (JS.charAt blockText i) (i + 1))
        as [acc'| |] eqn:E; try discriminate.
      simpl in H. rewrite (IH _ Hnot H). now apply extendLast_length in E.
    + simpl in H. now apply IH.
Qed.

(** Whatever the styles of the block are, [getStyleSections] emits at most
    one run; it starts at [start]. *)
Lemma getStyleSections_at_most_one_run
  (JSON_parseObject : string -> option (list (string * string)))
  (block : Block) (matchKeys : list InlineStyleNames) (start end_ : Z)
  (config : option Config) (styleSections : list StyleSection) :
  getStyleSections JSON_parseObject block matchKeys start end_ config
    = Ok styleSections ->
  (length styleSections <= 1)%nat.
Proof.
  unfold getStyleSections.
  destruct (0 <? JS.len (text block)); [|intros [= <-]; simpl; lia].
  destruct (Z.le_gt_cases (end_ - start) 0) as [Hle|Hgt].
  - replace (seqZ start (end_ - start)) with (@nil Z).
    + intros [= <-]. simpl. lia.
    + symmetry. apply seqZ_nil. lia.
  - rewrite seqZ_cons by lia. cbn [forEachM].
    unfold styleSectionsStep at 1.
    destruct (decide (start = start)) as [_|?]; [|contradiction].
    destruct (getStylesAtOffset _ start) as [st| |]; simpl; try discriminate.
    intros H. apply styleSections_no_new_run in H.
    + rewrite H. simpl. lia.
    + rewrite elem_of_seqZ. lia.
Qed.

(** C2 on the code: the loop of [getStyleSections] has no branch for a
    character whose styles differ from those of its predecessor.  On "ab"
    with red over [0,1) the string family over [0,2) yields the single run
    [0,1): index 1 is not covered.  On "abc" with BOLD over [0,1) the boolean
    family over [0,3) yields the single run [0,3) holding "a" and "c": the run
    spans characters of different styles and "b" is gone. *)
Theorem getStyleSections_drops_changed_characters
  (JSON_parseObject : string -> option (list (string * string))) :
  getStyleSections JSON_parseObject boldRedBlock STRING_INLINE_STYLE_NAMES 0 2
    None
  = Ok [{| styles := [(BOLD, SBool true); (COLOR, SStr "red")];
           ss_text := ["a"]; ss_start := 0; ss_end := 1 |}]
  /\ getStyleSections JSON_parseObject boldFirstBlock
       BOOLEAN_INLINE_STYLE_NAMES 0 3 None
     = Ok [{| styles := [(BOLD, SBool true)];
              ss_text := ["a"; "c"]; ss_start := 0; ss_end := 3 |}]
  /\ sameStyleAsPrevious (getStyleArrayForBlock JSON_parseObject boldFirstBlock None)
       BOOLEAN_INLINE_STYLE_NAMES 1 = false.
Proof. repeat split; vm_compute; reflexivity. Qed.

(** A [false] answer away from [start] leaves the runs as they are. *)
Lemma styleSectionsStep_false (inlineStyles : InlineStyles)
  (blockText : string) (matchKeys : list InlineStyleNames) (first i : Z)
  (styleSections : list StyleSection) :
  i <> first ->
  sameStyleAsPrevious inlineStyles matchKeys i = false ->
  styleSectionsStep inlineStyles blockText matchKeys first styleSections i
  = Ok styleSections.
Proof.
  intros Hne Hfalse. unfold styleSectionsStep.
  destruct (decide (i = first)) as [?|_]; [contradiction|].
  now rewrite Hfalse.
Qed.

(** C8 on the code: [sameStyleAsPrevious] itself never throws and answers
    [false] for an index out of bounds and for a key that does not compare
    equal.  But a [false] answer forces no new run in [getStyleSections]: the
    loop body then leaves the runs as they are.  On "ab" with red over [0,1)
    the answer for the string family at index 1 is [false], and the runs over
    [0,2) are still the single run [0,1). *)
Theorem sameStyleAsPrevious_false_starts_no_run
  (JSON_parseObject : string -> option (list (string * string))) :
  (forall (inlineStyles : InlineStyles) (matchKeys : list InlineStyleNames)
          (index : Z),
      (index <= 0 \/ islength inlineStyles <= index ->
       sameStyleAsPrevious inlineStyles matchKeys index = false)
      /\ (forall key : InlineStyleNames,
            key ∈ matchKeys ->
            sameAt inlineStyles index key <> Ok true ->
            sameStyleAsPrevious inlineStyles matchKeys index = false)
      /\ (forall (blockText : string) (first : Z)
                 (styleSections : list StyleSection),
            index <> first ->
            sameStyleAsPrevious inlineStyles matchKeys index = false ->
            styleSectionsStep inlineStyles blockText matchKeys first
              styleSections index = Ok styleSections))
  /\ sameStyleAsPrevious
       (getStyleArrayForBlock JSON_parseObject boldRedBlock None)
       STRING_INLINE_STYLE_NAMES 1 = false
  /\ getStyleSections JSON_parseObject boldRedBlock STRING_INLINE_STYLE_NAMES
       0 2 None
     = Ok [{| styles := [(BOLD, SBool true); (COLOR, SStr "red")];
              ss_text := ["a"]; ss_start := 0; ss_end := 1 |}].
Proof.
  split; [|split; vm_compute; reflexivity].
  intros inlineStyles matchKeys index.
  destruct (sameStyleAsPrevious_defensive inlineStyles matchKeys index)
    as (_ & Hout & Hkey & _).
  repeat split; auto using styleSectionsStep_false.
Qed.

(** ** Block content *)

(** C3 on the code: for "ab" with BOLD over [0,2) and color-red over [0,1)
    the block content is the bold span of "a" alone; the "b", whose colour
    differs from that of "a", is not rendered. *)
Theorem getBlockContentMarkdown_bold_red
  (JSON_parseObject : string -> option (list (string * string))) :
  getBlockContentMarkdown JSON_parseObject boldRedBlock ∅ defaultHashConfig
    None None
  = Ok ("**<span style=" +:+ dq +:+ "color: red;" +:+ dq +:+ " data-color="
          +:+ dq +:+ "true" +:+ dq +:+ ">a</span>**")
  /\ getBlockContentMarkdown JSON_parseObject boldRedBlock ∅ defaultHashConfig
       None None
     <> Ok ("**<span style=" +:+ dq +:+ "color: red;" +:+ dq +:+ " data-color="
              +:+ dq +:+ "true" +:+ dq +:+ ">a</span>b**").
Proof. split; vm_compute; [reflexivity | discriminate]. Qed.

(** A block with a single section gets the leading escape only: the section
    has index 0, so the branch of the last section is not reached. *)
Lemma single_section_gets_leading_escape_only
  (JSON_parseObject : string -> option (list (string * string)))
  (block : Block) (entityMap : EntityMap) (hashConfig : HashConfig)
  (customEntityTransform : option CustomEntityTransform)
  (config : option Config) (section : Sect) :
  isAtomicBlock block = false ->
  getSections block hashConfig = Ok [section] ->
  getBlockContentMarkdown JSON_parseObject block entityMap hashConfig
    customEntityTransform config
  = let? sectionText :=
      getSectionMarkdown JSON_parseObject block entityMap section
        customEntityTransform config in
    Ok (trimLeadingZeros sectionText).
Proof.
  intros Hatomic Hsections. unfold getBlockContentMarkdown.
  rewrite Hatomic, Hsections. cbn [obind length zip seqZ forEachM].
  change (zip (seqZ 0 (Z.of_nat 1)) [section]) with [(0, section)].
  cbn [forEachM]. unfold blockSectionStep.
  destruct (getSectionMarkdown _ _ _ _ _ _) as [sectionText| |]; simpl;
    try reflexivity.
  unfold JS.join. simpl. now rewrite append_empty_r.
Qed.

(** C4 on the code: a block without ranges has one section, of index 0; the
    branch for the last section is an [else if], so only the leading spaces
    of "  a b  " are escaped. *)
Theorem getBlockContentMarkdown_single_section_trailing
  (JSON_parseObject : string -> option (list (string * string))) :
  getSections paddedBlock defaultHashConfig
  = Ok [{| start := 0; end_ := 7; entityKey := None; stype := None |}]
  /\ getBlockContentMarkdown JSON_parseObject paddedBlock ∅ defaultHashConfig
       None None
     = Ok "&nbsp;&nbsp;a b  "
  /\ trimTrailingZeros (trimLeadingZeros "  a b  ")
     = "&nbsp;&nbsp;a b&nbsp;&nbsp;".
Proof. repeat split; vm_compute; reflexivity. Qed.

(** ** Further examples of the specification *)

(** An empty block with one IMAGE entity renders as a markdown image. *)
Example atomic_image_block
  (JSON_parseObject : string -> option (list (string * string))) :
  getBlockContentMarkdown JSON_parseObject
    {| key := "b1"; text := EmptyString; type := "atomic"; depth := 0;
       entityRanges := [{| er_offset := 0; er_length := 0; er_key := 0 |}];
       inlineStyleRanges := [] |}
    {[ 0 := imageEntity ]} defaultHashConfig None None
  = Ok "![y](x.png)".
Proof. vm_compute. reflexivity. Qed.

(** An unordered list item of depth 2 is indented by eight spaces. *)
Example list_item_indentation
  (JSON_parseObject : string -> option (list (string * string))) :
  draftToMarkdown JSON_parseObject
    (Some {| blocks :=
               [{| key := "b1"; text := "x"; type := "unordered-list-item";
                   depth := 2; entityRanges := []; inlineStyleRanges := [] |}];
             entityMap := ∅ |})
    {| p_trigger := None; p_separator := None |} None None
  = Ok ("        - x" +:+ nl).
Proof. vm_compute. reflexivity. Qed.

(** The hashtag of "hello #world foo" becomes a link to itself; the space
    before it falls into the hole left by the gap section. *)
Example hashtag_block
  (JSON_parseObject : string -> option (list (string * string))) :
  getBlockContentMarkdown JSON_parseObject
    {| key := "b1"; text := "hello #world foo"; type := "unstyled";
       depth := 0; entityRanges := []; inlineStyleRanges := [] |}
    ∅ defaultHashConfig None None
  = Ok "hello[#world](#world) foo".
Proof. vm_compute. reflexivity. Qed.

(** * Further properties *)

(** ** Hashtag detection, continued *)

(** X1: with an empty trigger and a non-empty text the loop of
    [getHashtagRanges] never ends: no number of iterations is enough.
    [getSections] does not return either, nor does the rendering of a block
    that is not atomic. *)
Theorem empty_trigger_never_returns
  (JSON_parseObject : string -> option (list (string * string)))
  (block : Block) (entityMap : EntityMap) (hashConfig : HashConfig)
  (customEntityTransform : option CustomEntityTransform)
  (config : option Config) :
  trigger hashConfig = EmptyString ->
  text block <> EmptyString ->
  (forall fuel : nat,
      getHashtagRangesFuel fuel (text block) hashConfig = None)
  /\ getSections block hashConfig = Diverges
  /\ (isAtomicBlock block = false ->
      getBlockContentMarkdown JSON_parseObject block entityMap hashConfig
        customEntityTransform config = Diverges).
Proof.
  intros Htrig Htext.
  assert (Hloop : forall fuel,
             getHashtagRangesFuel fuel (text block) hashConfig = None).
  { intros fuel. apply hashScanLoop_empty_trigger; [exact Htrig|].
    unfold hashScanCond, hashScanInit. simpl.
    destruct (text block) as [|c s]; [contradiction|].
    unfold JS.len. cbn [String.length]. apply andb_true_intro.
    split; [apply Z.ltb_lt; lia | reflexivity]. }
  assert (Hsections : getSections block hashConfig = Diverges).
  { unfold getSections, getHashtagRanges. now rewrite Hloop. }
  repeat split; auto.
  intros Hatomic. unfold getBlockContentMarkdown.
  now rewrite Hatomic, Hsections.
Qed.

Lemma empty_trigger_never_returns_witness :
  getSections paddedBlock {| trigger := EmptyString; separator := " " |}
  = Diverges.
Proof.
  refine (proj1 (proj2 (empty_trigger_never_returns (fun _ => None) paddedBlock
            ∅ {| trigger := EmptyString; separator := " " |} None None _ _))).
  - reflexivity.
  - discriminate.
Defined.

Section HashtagShape.

Variable hashConfig : HashConfig.

Lemma hashScanBody_shape (st : HashScan) :
  0 <= hs_counter st ->
  Forall (hashtagShaped hashConfig) (hs_preSections st) ->
  0 <= hs_counter (hashScanBody hashConfig st)
  /\ Forall (hashtagShaped hashConfig) (hs_preSections (hashScanBody hashConfig st)).
Proof.
  intros Hc Hall. unfold hashScanBody.
  pose proof (len_nonneg (trigger hashConfig)) as Ht.
  pose proof (len_nonneg (separator hashConfig)) as Hs.
  destruct (JS.startsWith (hs_text st) (trigger hashConfig)).
  - simpl. split; [lia|].
    destruct (0 <? JS.len _) eqn:E; [|exact Hall].
    apply Forall_app. split; [exact Hall|].
    constructor; [|constructor]. apply Z.ltb_lt in E.
    unfold hashtagShaped. simpl. repeat split; lia.
  - set (si := JS.indexOf (hs_text st)
                 (separator hashConfig +:+ trigger hashConfig)).
    destruct (Z.leb_spec 0 si) as [Hsi|Hsi].
    + destruct (Z.leb_spec 0 si) as [_|?]; [|lia]. simpl. split; [lia|].
      destruct (0 <? JS.len _) eqn:E; [|exact Hall].
      apply Forall_app. split; [exact Hall|].
      constructor; [|constructor]. apply Z.ltb_lt in E.
      unfold hashtagShaped. simpl. repeat split; lia.
    + destruct (Z.leb_spec 0 si) as [?|_]; [lia|]. simpl. auto.
Qed.

Lemma hashScanLoop_shape (fuel : nat) (st : HashScan)
  (preSections : list PreSection) :
  0 <= hs_counter st ->
  Forall (hashtagShaped hashConfig) (hs_preSections st) ->
  hashScanLoop fuel hashConfig st = Some preSections ->
  Forall (hashtagShaped hashConfig) preSections.
Proof.
  revert st; induction fuel as [|fuel IH]; intros st Hc Hall H; simpl in H;
    destruct (hashScanCond st); try discriminate;
    try (injection H as <-; exact Hall).
  destruct (hashScanBody_shape st Hc Hall) as [Hc' Hall'].
  exact (IH _ Hc' Hall' H).
Qed.

Lemma getHashtagRanges_shape (blockText : string)
  (preSections : list PreSection) :
  getHashtagRanges blockText hashConfig = Ok preSections ->
  Forall (hashtagShaped hashConfig) preSections.
Proof.
  unfold getHashtagRanges, getHashtagRangesFuel.
  destruct (hashScanLoop _ _ _) as [rs|] eqn:E; [|discriminate].
  intros [= <-]. eapply hashScanLoop_shape; [| |exact E]; simpl;
    [lia | constructor].
Qed.

End HashtagShape.

(** X2: every range the hashtag scanner returns is tagged HASHTAG, carries
    no entity key, starts at a non-negative offset and is longer than the
    trigger: a trigger without a body is never reported. *)
Theorem getHashtagRanges_ranges_are_hashtags (blockText : string)
  (hashConfig : HashConfig) (preSections : list PreSection) :
  getHashtagRanges blockText hashConfig = Ok preSections ->
  Forall (fun r => ps_type r = HASHTAG /\ ps_key r = None
                   /\ 0 <= ps_offset r
                   /\ JS.len (trigger hashConfig) < ps_length r)
    preSections.
Proof. exact (getHashtagRanges_shape hashConfig blockText preSections). Qed.

Lemma getHashtagRanges_ranges_are_hashtags_witness :
  Forall (fun r => ps_type r = HASHTAG /\ ps_key r = None
                   /\ 0 <= ps_offset r
                   /\ JS.len (trigger defaultHashConfig) < ps_length r)
    [{| ps_offset := 0; ps_length := 2; ps_key := None; ps_type := HASHTAG |};
     {| ps_offset := 3; ps_length := 3; ps_key := None; ps_type := HASHTAG |}].
Proof.
  apply (getHashtagRanges_ranges_are_hashtags "#a #bc # d" defaultHashConfig).
  vm_compute. reflexivity.
Defined.

(** ** Range segmentation, continued *)

Lemma insertByOffset_perm (r : PreSection) (rs : list PreSection) :
  insertByOffset r rs ≡ₚ r :: rs.
Proof.
  induction rs as [|r' rs IH]; simpl; [reflexivity|].
  destruct (ps_offset r <? ps_offset r'); [reflexivity|].
  rewrite IH. apply Permutation_swap.
Qed.

Lemma sortByOffset_perm (rs : list PreSection) : sortByOffset rs ≡ₚ rs.
Proof.
  unfold sortByOffset.
  assert (G : forall acc,
             fold_left (fun acc r => insertByOffset r acc) rs acc ≡ₚ acc ++ rs).
  { induction rs as [|r rs IH]; intros acc; simpl.
    - now rewrite app_nil_r.
    - rewrite IH, insertByOffset_perm. apply Permutation_middle. }
  apply (G []).
Qed.

Lemma filter_offset_none (o : Z) (rs : list PreSection) :
  Forall (fun q => o < ps_offset q) rs ->
  List.filter (fun q => ps_offset q =? o) rs = [].
Proof.
  induction 1 as [|q rs Hq _ IH]; [reflexivity|]. cbn [List.filter].
  destruct (Z.eqb_spec (ps_offset q) o); [lia | exact IH].
Qed.

(** Ranges of one offset keep their place among themselves when a range is
    inserted: the new one goes behind them. *)
Lemma insertByOffset_stable (o : Z) (r : PreSection) (rs : list PreSection) :
  StronglySorted offsetLe rs ->
  List.filter (fun q => ps_offset q =? o) (insertByOffset r rs)
  = List.filter (fun q => ps_offset q =? o) rs
      ++ List.filter (fun q => ps_offset q =? o) [r].
Proof.
  induction 1 as [|r' rs Hsorted IH Hall]; [reflexivity|].
  cbn [insertByOffset].
  destruct (Z.ltb_spec (ps_offset r) (ps_offset r')) as [Hlt|Hge].
  - cbn [List.filter]. destruct (Z.eqb_spec (ps_offset r) o) as [Ho|Hno].
    + destruct (Z.eqb_spec (ps_offset r') o) as [?|_]; [lia|].
      rewrite filter_offset_none; [reflexivity|].
      eapply Forall_impl; [exact Hall|]. unfold offsetLe. intros; lia.
    + now rewrite app_nil_r.
  - cbn [List.filter] in *. destruct (ps_offset r' =? o); rewrite IH;
      reflexivity.
Qed.

Lemma sortByOffset_stable (o : Z) (rs : list PreSection) :
  List.filter (fun q => ps_offset q =? o) (sortByOffset rs)
  = List.filter (fun q => ps_offset q =? o) rs.
Proof.
  unfold sortByOffset.
  assert (G : forall acc,
    StronglySorted offsetLe acc ->
    List.filter (fun q => ps_offset q =? o)
      (fold_left (fun acc r => insertByOffset r acc) rs acc)
    = List.filter (fun q => ps_offset q =? o) acc
        ++ List.filter (fun q => ps_offset q =? o) rs).
  { induction rs as [|r rs IH]; intros acc Hacc; simpl.
    - now rewrite app_nil_r.
    - rewrite IH by now apply insertByOffset_sorted.
      rewrite insertByOffset_stable by exact Hacc.
      rewrite <- app_assoc. cbn [List.filter].
      now destruct (ps_offset r =? o). }
  apply (G []). constructor.
Qed.

(** X3: the sort of [getSections] reorders the ranges and nothing else: the
    result holds the same ranges, in ascending offset, and ranges of equal
    offset keep the order they came in (an entity range before a hashtag that
    starts at the same place). *)
Theorem sortByOffset_sorts (rs : list PreSection) :
  sortByOffset rs ≡ₚ rs
  /\ StronglySorted offsetLe (sortByOffset rs)
  /\ forall o : Z,
       List.filter (fun q => ps_offset q =? o) (sortByOffset rs)
       = List.filter (fun q => ps_offset q =? o) rs.
Proof.
  split; [apply sortByOffset_perm|]. split; [|intros o; apply sortByOffset_stable].
  apply (sortByOffset_spec (fun _ => True)). now apply Forall_forall.
Qed.

(** The tagged sections pushed by the loop of [getSections] are the ranges
    it is given, in that order. *)
Lemma sectionsStep_tagged (rs : list PreSection) (sections : list Sect)
  (lastOffset : Z) :
  List.filter isTagged (fold_left sectionsStep rs (sections, lastOffset)).1
  = List.filter isTagged sections ++ map rangeSection rs.
Proof.
  revert sections lastOffset; induction rs as [|r rs IH];
    intros sections lastOffset; simpl; [now rewrite app_nil_r|].
  rewrite IH. rewrite List.filter_app. cbn [List.filter isTagged stype].
  destruct (lastOffset <? ps_offset r).
  - rewrite List.filter_app. cbn [List.filter isTagged stype].
    rewrite app_nil_r, <- app_assoc. reflexivity.
  - rewrite <- app_assoc. reflexivity.
Qed.

(** The tagged sections of a block are its ranges. *)
Lemma tagged_sections_of_block (block : Block) (hashConfig : HashConfig)
  (sections : list Sect) :
  getSections block hashConfig = Ok sections ->
  exists hashtags : list PreSection,
    getHashtagRanges (text block) hashConfig = Ok hashtags
    /\ List.filter isTagged sections
       = map rangeSection
           (sortByOffset (map entityPreSection (entityRanges block) ++ hashtags)).
Proof.
  unfold getSections.
  destruct (getHashtagRanges (text block) hashConfig) as [hashtags| |];
    try discriminate.
  intros [= <-]. exists hashtags. split; [reflexivity|].
  unfold sectionsOfRanges.
  pose proof (sectionsStep_tagged
    (sortByOffset (map entityPreSection (entityRanges block) ++ hashtags))
    [] 0) as H.
  destruct (fold_left sectionsStep _ _) as [acc lastOffset]. simpl in H.
  destruct (lastOffset <? JS.len (text block)); [|exact H].
  rewrite List.filter_app. cbn [List.filter isTagged stype].
  now rewrite app_nil_r.
Qed.

(** X4: every entity range and every hashtag of a block becomes one tagged
    section with the bounds, the key and the tag of the range; the tagged
    sections are these and no others, in ascending offset.  No range is
    dropped or merged, whether or not ranges overlap. *)
Theorem getSections_keeps_every_range (block : Block) (hashConfig : HashConfig)
  (sections : list Sect) :
  getSections block hashConfig = Ok sections ->
  exists hashtags : list PreSection,
    getHashtagRanges (text block) hashConfig = Ok hashtags
    /\ List.filter isTagged sections
       = map rangeSection
           (sortByOffset (map entityPreSection (entityRanges block) ++ hashtags)).
Proof. apply tagged_sections_of_block. Qed.

Lemma getSections_keeps_every_range_witness :
  exists hashtags : list PreSection,
    getHashtagRanges (text gapBlock) defaultHashConfig = Ok hashtags
    /\ List.filter isTagged
         [{| start := 0; end_ := 1; entityKey := None; stype := None |};
          {| start := 2; end_ := 3; entityKey := Some 0;
             stype := Some ENTITY |}]
       = map rangeSection
           (sortByOffset
              (map entityPreSection (entityRanges gapBlock) ++ hashtags)).
Proof.
  apply (getSections_keeps_every_range gapBlock defaultHashConfig).
  vm_compute. reflexivity.
Defined.

(** *** Which characters the sections hold *)

Lemma coverCount_snoc (sections : list Sect) (section : Sect) (i : Z) :
  coverCount (sections ++ [section]) i
  = (coverCount sections i + if covers section i then 1 else 0)%nat.
Proof. now rewrite coverCount_app, coverCount_one. Qed.

Lemma existsb_none {A : Type} (f : A -> bool) (xs : list A) :
  Forall (fun x => f x = false) xs -> existsb f xs = false.
Proof.
  induction 1 as [|x xs Hx _ IH]; [reflexivity|]. simpl. now rewrite Hx, IH.
Qed.

Lemma existsb_perm {A : Type} (f : A -> bool) (xs ys : list A) :
  xs ≡ₚ ys -> existsb f xs = existsb f ys.
Proof.
  intros Hp. apply eq_iff_eq_true. rewrite !existsb_exists.
  split; intros [x [Hin Hx]]; exists x; split; auto;
    [eapply Permutation_in; eauto
    | eapply Permutation_in; [symmetry|]; eauto].
Qed.

Lemma separated_from (n lastOffset : Z) (rs : list PreSection) :
  separated n lastOffset rs = true ->
  Forall (fun q => lastOffset <= ps_offset q /\ 0 < ps_length q) rs.
Proof.
  revert lastOffset; induction rs as [|r rs IH]; intros lastOffset H;
    [constructor|].
  cbn [separated] in H. apply andb_prop in H as [H Hrest].
  apply andb_prop in H as [H Hend]. apply andb_prop in H as [Hoff Hlen].
  apply Z.leb_le in Hoff. apply Z.ltb_lt in Hlen.
  constructor; [lia|].
  eapply Forall_impl; [exact (IH _ Hrest)|]. simpl. intros; lia.
Qed.

Section Coverage.

Variable textLength : Z.

(** What [getSections] returns once the loop has left [(sections,
    lastOffset)]. *)
Let finished (state : list Sect * Z) : list Sect :=
  if state.2 <? textLength then
    state.1 ++ [{| start := state.2; end_ := textLength;
                   entityKey := None; stype := None |}]
  else state.1.

Lemma sectionsOfRanges_finished (sectionRanges : list PreSection) :
  sectionsOfRanges textLength sectionRanges
  = finished (fold_left sectionsStep (sortByOffset sectionRanges) ([], 0)).
Proof.
  unfold sectionsOfRanges, finished.
  now destruct (fold_left sectionsStep _ _) as [sections lastOffset].
Qed.

(** Sections pushed from [lastOffset] on do not reach below it. *)
Lemma finished_below (rs : list PreSection) (sections : list Sect)
  (lastOffset i : Z) :
  separated textLength lastOffset rs = true ->
  i < lastOffset ->
  coverCount (finished (fold_left sectionsStep rs (sections, lastOffset))) i
  = coverCount sections i.
Proof.
  revert sections lastOffset; induction rs as [|r rs IH];
    intros sections lastOffset Hsep Hi.
  - unfold finished. simpl. destruct (lastOffset <? textLength); [|reflexivity].
    rewrite coverCount_snoc. unfold covers. simpl.
    destruct (Z.leb_spec lastOffset i); [lia|]. simpl. lia.
  - pose proof (separated_from _ _ _ Hsep) as Hall.
    inversion Hall as [|? ? [Hoff Hlen] _]; subst.
    cbn [separated] in Hsep. apply andb_prop in Hsep as [_ Hrest].
    cbn [fold_left]. unfold sectionsStep at 2.
    rewrite IH; [|exact Hrest|lia].
    rewrite coverCount_snoc. unfold covers at 1. simpl.
    destruct (Z.leb_spec (ps_offset r) i); [lia|]. simpl.
    destruct (lastOffset <? ps_offset r); [|lia].
    rewrite coverCount_snoc. unfold covers. simpl.
    destruct (Z.leb_spec lastOffset i); [lia|]. simpl. lia.
Qed.

(** From [lastOffset] on, a character is in one section, or in none when it
    stands just before a range. *)
Lemma finished_from (rs : list PreSection) (sections : list Sect)
  (lastOffset i : Z) :
  separated textLength lastOffset rs = true ->
  lastOffset <= i < textLength ->
  coverCount (finished (fold_left sectionsStep rs (sections, lastOffset))) i
  = (coverCount sections i + if beforeRange rs i then 0 else 1)%nat.
Proof.
  revert sections lastOffset; induction rs as [|r rs IH];
    intros sections lastOffset Hsep Hi.
  - unfold finished. simpl.
    destruct (Z.ltb_spec lastOffset textLength); [|lia].
    rewrite coverCount_snoc. unfold covers. simpl.
    destruct (Z.leb_spec lastOffset i); [|lia].
    destruct (Z.ltb_spec i textLength); [|lia]. reflexivity.
  - pose proof (separated_from _ _ _ Hsep) as Hall.
    inversion Hall as [|? ? [Hoff Hlen] _]; subst.
    cbn [separated] in Hsep. apply andb_prop in Hsep as [Hsep Hrest].
    pose proof (separated_from _ _ _ Hrest) as Hall'.
    assert (Hno_in : i < ps_offset r + ps_length r ->
                     existsb (fun q => inRange q i) rs = false).
    { intros Hlt. apply existsb_none.
      eapply Forall_impl; [exact Hall'|]. simpl. intros q [Hq _].
      unfold inRange. destruct (Z.leb_spec (ps_offset q) i); [lia|].
      reflexivity. }
    assert (Hno_off : i + 1 < ps_offset r + ps_length r ->
                      existsb (fun q => ps_offset q =? i + 1) rs = false).
    { intros Hlt. apply existsb_none.
      eapply Forall_impl; [exact Hall'|]. simpl. intros q [Hq _].
      destruct (Z.eqb_spec (ps_offset q) (i + 1)); [lia|]. reflexivity. }
    cbn [fold_left]. unfold sectionsStep at 2.
    unfold beforeRange. cbn [existsb]. unfold inRange at 1.
    destruct (Z.lt_ge_cases i (ps_offset r + ps_length r)) as [Hin|Hpast].
    + (* up to the end of [r]: the rest adds nothing *)
      rewrite finished_below; [|exact Hrest|exact Hin].
      rewrite coverCount_snoc. unfold covers at 1. simpl.
      rewrite (Hno_in Hin).
      destruct (Z.ltb_spec i (ps_offset r + ps_length r)); [|lia].
      destruct (Z.leb_spec (ps_offset r) i) as [Hge|Hlt]; simpl.
      * (* inside [r] *)
        rewrite andb_false_r.
        destruct (lastOffset <? ps_offset r); [|lia].
        rewrite coverCount_snoc. unfold covers. simpl.
        destruct (Z.ltb_spec i (ps_offset r - 1)); [lia|].
        rewrite andb_false_r. lia.
      * (* in the gap before [r] *)
        destruct (Z.ltb_spec lastOffset (ps_offset r)); [|lia].
        rewrite coverCount_snoc. unfold covers. simpl.
        destruct (Z.leb_spec lastOffset i); [|lia]. simpl.
        rewrite andb_true_r.
        destruct (Z.eqb_spec (ps_offset r) (i + 1)) as [Heq|Hne]; simpl.
        -- destruct (Z.ltb_spec i (ps_offset r - 1)); [lia|]. lia.
        -- rewrite Hno_off by lia.
           destruct (Z.ltb_spec i (ps_offset r - 1)); [|lia]. lia.
    + (* past [r]: the rest decides *)
      rewrite IH; [|exact Hrest|lia].
      rewrite coverCount_snoc. unfold covers at 1. simpl.
      destruct (Z.ltb_spec i (ps_offset r + ps_length r)); [lia|].
      rewrite andb_false_r.
      destruct (Z.eqb_spec (ps_offset r) (i + 1)); [lia|]. simpl.
      fold (beforeRange rs i).
      destruct (lastOffset <? ps_offset r); [|lia].
      rewrite coverCount_snoc. unfold covers. simpl.
      destruct (Z.ltb_spec i (ps_offset r - 1)); [lia|].
      rewrite andb_false_r. lia.
Qed.

End Coverage.

Lemma beforeRange_perm (rs rs' : list PreSection) (i : Z) :
  rs ≡ₚ rs' -> beforeRange rs i = beforeRange rs' i.
Proof.
  intros Hp. unfold beforeRange.
  now rewrite (existsb_perm _ _ _ Hp), (existsb_perm (fun r => inRange r i) _ _ Hp).
Qed.

(** X5: take a block whose ranges (entity ranges and hashtags), in offset
    order, do not overlap, are not empty and end inside the text.  Then every
    character of the text lies in exactly one section, except the characters
    that stand just before a range and inside no range: those lie in no
    section, because the gap section before a range stops one character
    short. *)
Theorem getSections_coverage (block : Block) (hashConfig : HashConfig)
  (hashtags : list PreSection) (i : Z) :
  getHashtagRanges (text block) hashConfig = Ok hashtags ->
  separated (JS.len (text block)) 0
    (sortByOffset (map entityPreSection (entityRanges block) ++ hashtags))
  = true ->
  0 <= i < JS.len (text block) ->
  exists sections : list Sect,
    getSections block hashConfig = Ok sections
    /\ coverCount sections i
       = if beforeRange
              (map entityPreSection (entityRanges block) ++ hashtags) i
         then 0%nat else 1%nat.
Proof.
  intros Hhash Hsep Hi. unfold getSections. rewrite Hhash. simpl.
  eexists. split; [reflexivity|].
  rewrite sectionsOfRanges_finished.
  rewrite (finished_from _ _ _ _ _ Hsep Hi).
  rewrite (beforeRange_perm _ _ _ (sortByOffset_perm _)).
  reflexivity.
Qed.

Lemma getSections_coverage_witness :
  exists sections : list Sect,
    getSections gapBlock defaultHashConfig = Ok sections
    /\ coverCount sections 1 = 0%nat.
Proof.
  apply (getSections_coverage gapBlock defaultHashConfig [] 1).
  - vm_compute. reflexivity.
  - vm_compute. reflexivity.
  - vm_compute. split; [discriminate | reflexivity].
Defined.

(** ** Style materialisation *)

Section Materialiser.

Variable JSON_parseObject : string -> option (list (string * string)).
Variable config : option Config.

Lemma applyStyleAt_styleWrite (style : string) (inlineStyles : InlineStyles)
  (i : Z) :
  applyStyleAt JSON_parseObject config style inlineStyles i
  = match styleWrite JSON_parseObject config style with
    | Some (k, v) => setStyle k i v inlineStyles
    | None => inlineStyles
    end.
Proof.
  unfold applyStyleAt, styleWrite.
  repeat (destruct (JS.startsWith style _); [reflexivity|]).
  destruct (booleanStyleNamed style); [reflexivity|].
  now destruct (isJSONObjectString JSON_parseObject style
                && flag config rawCssInlineStyles).
Qed.

(** One range, written index by index. *)
Lemma applyStyle_indices (style : string) (name : InlineStyleNames)
  (indices : list Z) (inlineStyles : InlineStyles) (arr0 : gmap Z StyleValue) :
  arrayOf inlineStyles name = Some arr0 ->
  exists arr : gmap Z StyleValue,
    arrayOf (fold_left (applyStyleAt JSON_parseObject config style) indices
               inlineStyles) name = Some arr
    /\ islength (fold_left (applyStyleAt JSON_parseObject config style) indices
                   inlineStyles) = islength inlineStyles
    /\ forall i : Z,
         arr !! i
         = if bool_decide (i ∈ indices) then
             match styleWrite JSON_parseObject config style with
             | Some (k, v) => if decide (k = name) then Some v else arr0 !! i
             | None => arr0 !! i
             end
           else arr0 !! i.
Proof.
  revert inlineStyles arr0; induction indices as [|j indices IH];
    intros inlineStyles arr0 Harr.
  - exists arr0. repeat split; auto.
  - cbn [fold_left]. rewrite applyStyleAt_styleWrite.
    destruct (styleWrite JSON_parseObject config style) as [[k v]|] eqn:Hw.
    + destruct (decide (k = name)) as [->|Hne].
      * destruct (IH (setStyle name j v inlineStyles) (<[j := v]> arr0))
          as (arr & Harr' & Hlen & Hget).
        { simpl. destruct (decide (name = name)); [|contradiction].
          now rewrite Harr. }
        exists arr. split; [exact Harr'|]. split; [exact Hlen|].
        intros i. rewrite Hget.
        destruct (decide (name = name)); [|contradiction].
        destruct (decide (i ∈ indices)) as [Hin|Hnin].
        -- rewrite !bool_decide_eq_true_2; auto. now apply list_elem_of_further.
        -- rewrite (bool_decide_eq_false_2 (i ∈ indices)) by exact Hnin.
           destruct (decide (i = j)) as [->|Hij].
           ++ rewrite bool_decide_eq_true_2 by apply list_elem_of_here.
              apply lookup_insert_eq.
           ++ rewrite bool_decide_eq_false_2.
              ** now apply lookup_insert_ne.
              ** intros [?|?]%elem_of_cons; contradiction.
      * destruct (IH (setStyle k j v inlineStyles) arr0)
          as (arr & Harr' & Hlen & Hget).
        { simpl. destruct (decide (name = k)); [congruence | exact Harr]. }
        exists arr. split; [exact Harr'|]. split; [exact Hlen|].
        intros i. rewrite Hget.
        destruct (decide (k = name)); [contradiction|].
        now destruct (bool_decide (i ∈ indices)), (bool_decide (i ∈ j :: indices)).
    + destruct (IH inlineStyles arr0 Harr) as (arr & Harr' & Hlen & Hget).
      exists arr. split; [exact Harr'|]. split; [exact Hlen|].
      intros i. rewrite Hget.
      now destruct (bool_decide (i ∈ indices)), (bool_decide (i ∈ j :: indices)).
Qed.

Lemma applyStyleRange_writeOver (name : InlineStyleNames)
  (r : InlineStyleRange) (inlineStyles : InlineStyles)
  (arr0 : gmap Z StyleValue) :
  arrayOf inlineStyles name = Some arr0 ->
  exists arr : gmap Z StyleValue,
    arrayOf (applyStyleRange JSON_parseObject config inlineStyles r) name
    = Some arr
    /\ islength (applyStyleRange JSON_parseObject config inlineStyles r)
       = islength inlineStyles
    /\ forall i : Z,
         arr !! i = writeOver JSON_parseObject config name i (arr0 !! i) r.
Proof.
  intros Harr. unfold applyStyleRange.
  destruct (applyStyle_indices (isr_style r) name
              (seqZ (isr_offset r) (isr_length r)) inlineStyles arr0 Harr)
    as (arr & Harr' & Hlen & Hget).
  exists arr. split; [exact Harr'|]. split; [exact Hlen|].
  intros i. rewrite Hget. unfold writeOver, rangeHolds.
  destruct (decide (i ∈ seqZ (isr_offset r) (isr_length r))) as [Hin|Hnin].
  - rewrite bool_decide_eq_true_2 by exact Hin.
    apply elem_of_seqZ in Hin.
    destruct (Z.leb_spec (isr_offset r) i); [|lia].
    destruct (Z.ltb_spec i (isr_offset r + isr_length r)); [|lia].
    reflexivity.
  - rewrite bool_decide_eq_false_2 by exact Hnin.
    rewrite elem_of_seqZ in Hnin.
    destruct (Z.leb_spec (isr_offset r) i); [|reflexivity].
    destruct (Z.ltb_spec i (isr_offset r + isr_length r)); [lia|].
    reflexivity.
Qed.

Lemma applyStyleRanges_writeOver (name : InlineStyleNames)
  (ranges : list InlineStyleRange) (inlineStyles : InlineStyles)
  (arr0 : gmap Z StyleValue) :
  arrayOf inlineStyles name = Some arr0 ->
  exists arr : gmap Z StyleValue,
    arrayOf (fold_left (applyStyleRange JSON_parseObject config) ranges
               inlineStyles) name = Some arr
    /\ islength (fold_left (applyStyleRange JSON_parseObject config) ranges
                   inlineStyles) = islength inlineStyles
    /\ forall i : Z,
         arr !! i
         = fold_left (writeOver JSON_parseObject config name i) ranges
             (arr0 !! i).
Proof.
  revert inlineStyles arr0; induction ranges as [|r ranges IH];
    intros inlineStyles arr0 Harr.
  - exists arr0. repeat split; auto.
  - destruct (applyStyleRange_writeOver name r inlineStyles arr0 Harr)
      as (arr1 & Harr1 & Hlen1 & Hget1).
    destruct (IH _ _ Harr1) as (arr & Harr' & Hlen & Hget).
    exists arr. split; [exact Harr'|]. split; [simpl; congruence|].
    intros i. rewrite Hget, Hget1. reflexivity.
Qed.

(** What [getStyleArrayForBlock] builds: every array is there, the length is
    that of the text, and each slot holds the last write to it. *)
Lemma getStyleArrayForBlock_lastWrite (block : Block)
  (name : InlineStyleNames) :
  exists arr : gmap Z StyleValue,
    arrayOf (getStyleArrayForBlock JSON_parseObject block config) name
    = Some arr
    /\ islength (getStyleArrayForBlock JSON_parseObject block config)
       = JS.len (text block)
    /\ forall i : Z,
         arr !! i
         = lastWrite JSON_parseObject config (inlineStyleRanges block) name i.
Proof.
  unfold getStyleArrayForBlock, lastWrite.
  destruct (applyStyleRanges_writeOver name (inlineStyleRanges block)
              (emptyInlineStyles (JS.len (text block))) ∅ eq_refl)
    as (arr & Harr & Hlen & Hget).
  exists arr. split; [exact Harr|]. split; [exact Hlen|].
  intros i. rewrite Hget. now rewrite lookup_empty.
Qed.

End Materialiser.

(** X6: the style arrays of a block follow the ranges as the specification
    says.  Every one of the fourteen arrays is present, the [length] field is
    the length of the text, and slot [i] of the array of a style holds the
    value written by the last range, in the order of [inlineStyleRanges], that
    covers [i] and counts for that style; a slot no such range covers is a
    hole.  A range never writes outside its interval, and a range whose style
    is not recognised writes nothing. *)
Theorem getStyleArrayForBlock_last_write_wins
  (JSON_parseObject : string -> option (list (string * string)))
  (block : Block) (config : option Config) (name : InlineStyleNames) :
  exists arr : gmap Z StyleValue,
    arrayOf (getStyleArrayForBlock JSON_parseObject block config) name
    = Some arr
    /\ islength (getStyleArrayForBlock JSON_parseObject block config)
       = JS.len (text block)
    /\ forall i : Z,
         arr !! i
         = lastWrite JSON_parseObject config (inlineStyleRanges block) name i.
Proof. apply getStyleArrayForBlock_lastWrite. Qed.

Lemma styleWrite_typed
  (JSON_parseObject : string -> option (list (string * string)))
  (config : option Config) (style : string) (k : InlineStyleNames)
  (v : StyleValue) :
  styleWrite JSON_parseObject config style = Some (k, v) ->
  (k ∈ BOOLEAN_INLINE_STYLE_NAMES /\ v = SBool true)
  \/ (k ∈ STRING_INLINE_STYLE_NAMES /\ (exists s, v = SStr s)
      /\ (k = RAWCSS -> flag config rawCssInlineStyles = true)).
Proof.
  unfold styleWrite.
  repeat (destruct (JS.startsWith style _);
          [intros [= <- <-]; right; split;
             [set_solver | split; [eauto | discriminate]]|]).
  destruct (booleanStyleNamed style) as [name|] eqn:E.
  - intros [= <- <-]. left. split; [|reflexivity].
    unfold booleanStyleNamed in E. apply find_some in E as [Hin _].
    now apply list_elem_of_In.
  - destruct (isJSONObjectString JSON_parseObject style); simpl; [|discriminate].
    destruct (flag config rawCssInlineStyles) eqn:F; [|discriminate].
    intros [= <- <-]. right. split; [set_solver|]. split; eauto.
Qed.

(** X7: the arrays are typed and the raw CSS array is guarded.  A slot of a
    boolean style's array holds nothing but [true], a slot of a string
    style's array nothing but a string, and the RAWCSS array stays empty
    unless [rawCssInlineStyles] is set, whatever the style ranges are. *)
Theorem getStyleArrayForBlock_typed
  (JSON_parseObject : string -> option (list (string * string)))
  (block : Block) (config : option Config) (name : InlineStyleNames)
  (arr : gmap Z StyleValue) (i : Z) (v : StyleValue) :
  arrayOf (getStyleArrayForBlock JSON_parseObject block config) name
  = Some arr ->
  arr !! i = Some v ->
  (name ∈ BOOLEAN_INLINE_STYLE_NAMES /\ v = SBool true)
  \/ (name ∈ STRING_INLINE_STYLE_NAMES /\ (exists s, v = SStr s)
      /\ (name = RAWCSS -> flag config rawCssInlineStyles = true)).
Proof.
  intros Harr Hv.
  destruct (getStyleArrayForBlock_lastWrite JSON_parseObject config block name)
    as (arr' & Harr' & _ & Hget).
  rewrite Harr in Harr'. injection Harr' as <-.
  rewrite Hget in Hv. unfold lastWrite in Hv.
  assert (G : forall ranges held,
    (forall w, held = Some w ->
       (name ∈ BOOLEAN_INLINE_STYLE_NAMES /\ w = SBool true)
       \/ (name ∈ STRING_INLINE_STYLE_NAMES /\ (exists s, w = SStr s)
           /\ (name = RAWCSS -> flag config rawCssInlineStyles = true))) ->
    fold_left (writeOver JSON_parseObject config name i) ranges held = Some v ->
    (name ∈ BOOLEAN_INLINE_STYLE_NAMES /\ v = SBool true)
    \/ (name ∈ STRING_INLINE_STYLE_NAMES /\ (exists s, v = SStr s)
        /\ (name = RAWCSS -> flag config rawCssInlineStyles = true))).
  { induction ranges as [|r ranges IH]; intros held Hheld H; simpl in H;
      [now apply Hheld|].
    eapply IH; [|exact H]. intros w Hw.
    unfold writeOver in Hw. destruct (rangeHolds r i); [|now apply Hheld].
    destruct (styleWrite JSON_parseObject config (isr_style r))
      as [[k u]|] eqn:E; [|now apply Hheld].
    destruct (decide (k = name)) as [->|_]; [|now apply Hheld].
    injection Hw as <-. exact (styleWrite_typed _ _ _ _ _ E). }
  apply (G (inlineStyleRanges block) None); [discriminate | exact Hv].
Qed.

Lemma getStyleArrayForBlock_typed_witness :
  (BOLD ∈ BOOLEAN_INLINE_STYLE_NAMES /\ SBool true = SBool true)
  \/ (BOLD ∈ STRING_INLINE_STYLE_NAMES /\ (exists s, SBool true = SStr s)
      /\ (BOLD = RAWCSS -> flag None rawCssInlineStyles = true)).
Proof.
  apply (getStyleArrayForBlock_typed (fun _ => None) boldRedBlock None BOLD
           {[ 0 := SBool true; 1 := SBool true ]} 1 (SBool true)).
  - vm_compute. reflexivity.
  - vm_compute. reflexivity.
Defined.

(** ** Style snapshots *)

Lemma getStylesAtOffset_entries (inlineStyles : InlineStyles) (offset : Z)
  (names : list InlineStyleNames) :
  (forall k, is_Some (arrayOf inlineStyles k)) ->
  NoDup names ->
  forall entries : SingleInlineStyles,
  exists new : SingleInlineStyles,
    forEachM
      (fun entries key =>
         match arrayOf inlineStyles key with
         | None => Throws
         | Some arr =>
             match arr !! offset with
             | Some v =>
                 Ok (if styleTruthy v then entries ++ [(key, v)] else entries)
             | None => Ok entries
             end
         end) names entries = Ok (entries ++ new)
    /\ sublist (map fst new) names
    /\ forall k, styleOf new k
                 = if decide (k ∈ names) then heldAt inlineStyles offset k
                   else None.
Proof.
  intros Hall. induction 1 as [|k0 names Hnotin Hnodup IH]; intros entries.
  - exists []. rewrite app_nil_r. split; [reflexivity|].
    split; [constructor|].
    intros k. destruct (decide (k ∈ [])) as [Hin|_]; [inversion Hin|reflexivity].
  - cbn [forEachM]. unfold heldAt in *.
    destruct (Hall k0) as [arr Harr]. rewrite Harr.
    assert (Hother : forall k new,
      k <> k0 ->
      (styleOf new k =
         if decide (k ∈ names)
         then match arrayOf inlineStyles k with
              | Some arr0 => match arr0 !! offset with
                             | Some v => if styleTruthy v then Some v else None
                             | None => None
                             end
              | None => None
              end
         else None) ->
      styleOf new k =
        if decide (k ∈ k0 :: names)
        then match arrayOf inlineStyles k with
             | Some arr0 => match arr0 !! offset with
                            | Some v => if styleTruthy v then Some v else None
                            | None => None
                            end
             | None => None
             end
        else None).
    { intros k new Hne ->.
      destruct (decide (k ∈ names)) as [Hin|Hnin];
        destruct (decide (k ∈ k0 :: names)) as [Hin'|Hnin']; try reflexivity.
      - exfalso. apply Hnin'. now apply list_elem_of_further.
      - apply elem_of_cons in Hin' as [?|?]; contradiction. }
    destruct (arr !! offset) as [v|] eqn:Hv; [destruct (styleTruthy v) eqn:Ht|].
    + destruct (IH (entries ++ [(k0, v)])) as (new & Hrun & Hsub & Hget).
      exists ((k0, v) :: new). simpl. rewrite Hrun, <- app_assoc.
      split; [reflexivity|]. split; [now constructor|].
      intros k. cbn [styleOf]. destruct (decide (k0 = k)) as [<-|Hne].
      * rewrite decide_True by apply list_elem_of_here.
        now rewrite Harr, Hv, Ht.
      * apply Hother; [congruence | apply Hget].
    + destruct (IH entries) as (new & Hrun & Hsub & Hget).
      exists new. simpl. rewrite Hrun.
      split; [reflexivity|]. split; [now apply sublist_cons|].
      intros k. destruct (decide (k = k0)) as [->|Hne].
      * rewrite Hget, decide_False by exact Hnotin.
        rewrite decide_True by apply list_elem_of_here.
        now rewrite Harr, Hv, Ht.
      * apply Hother; [exact Hne | apply Hget].
    + destruct (IH entries) as (new & Hrun & Hsub & Hget).
      exists new. simpl. rewrite Hrun.
      split; [reflexivity|]. split; [now apply sublist_cons|].
      intros k. destruct (decide (k = k0)) as [->|Hne].
      * rewrite Hget, decide_False by exact Hnotin.
        rewrite decide_True by apply list_elem_of_here.
        now rewrite Harr, Hv.
      * apply Hother; [exact Hne | apply Hget].
Qed.

Lemma INLINE_STYLE_NAMES_NoDup : NoDup INLINE_STYLE_NAMES.
Proof. apply NoDup_ListNoDup. repeat constructor; simpl; intuition discriminate. Qed.

Lemma INLINE_STYLE_NAMES_all (k : InlineStyleNames) : k ∈ INLINE_STYLE_NAMES.
Proof. destruct k; unfold INLINE_STYLE_NAMES; simpl; set_solver. Qed.

(** On an object that has all its arrays [getStylesAtOffset] returns the
    truthy values of the slot, keyed in the order of [INLINE_STYLE_NAMES]. *)
Lemma getStylesAtOffset_held (inlineStyles : InlineStyles) (offset : Z) :
  (forall k, is_Some (arrayOf inlineStyles k)) ->
  exists styles : SingleInlineStyles,
    getStylesAtOffset inlineStyles offset = Ok styles
    /\ sublist (map fst styles) INLINE_STYLE_NAMES
    /\ forall k, styleOf styles k = heldAt inlineStyles offset k.
Proof.
  intros Hall.
  destruct (getStylesAtOffset_entries inlineStyles offset INLINE_STYLE_NAMES
              Hall INLINE_STYLE_NAMES_NoDup []) as (new & Hrun & Hsub & Hget).
  exists new. split; [exact Hrun|]. split; [exact Hsub|].
  intros k. rewrite Hget.
  now rewrite decide_True by apply INLINE_STYLE_NAMES_all.
Qed.

(** The snapshot of a block, read off its style ranges. *)
Lemma snapshot_of_block
  (JSON_parseObject : string -> option (list (string * string)))
  (block : Block) (config : option Config) (offset : Z) :
  exists styles : SingleInlineStyles,
    getStylesAtOffset (getStyleArrayForBlock JSON_parseObject block config)
      offset = Ok styles
    /\ sublist (map fst styles) INLINE_STYLE_NAMES
    /\ forall name : InlineStyleNames,
         styleOf styles name
         = match lastWrite JSON_parseObject config (inlineStyleRanges block)
                   name offset with
           | Some v => if styleTruthy v then Some v else None
           | None => None
           end.
Proof.
  destruct (getStylesAtOffset_held
              (getStyleArrayForBlock JSON_parseObject block config) offset)
    as (styles & Hrun & Hsub & Hget).
  { intros k.
    destruct (getStyleArrayForBlock_lastWrite JSON_parseObject config block k)
      as (arr & Harr & _). now exists arr. }
  exists styles. split; [exact Hrun|]. split; [exact Hsub|].
  intros name. rewrite Hget. unfold heldAt.
  destruct (getStyleArrayForBlock_lastWrite JSON_parseObject config block name)
    as (arr & Harr & _ & Hlast).
  now rewrite Harr, Hlast.
Qed.

(** X8: the style snapshot of a block at an offset never throws.  It lists,
    in the order of [INLINE_STYLE_NAMES], each style whose last covering
    range wrote a truthy value, with that value; a style whose value is the
    empty string (as for the range style "color-") is left out. *)
Theorem getStylesAtOffset_of_block
  (JSON_parseObject : string -> option (list (string * string)))
  (block : Block) (config : option Config) (offset : Z) :
  exists styles : SingleInlineStyles,
    getStylesAtOffset (getStyleArrayForBlock JSON_parseObject block config)
      offset = Ok styles
    /\ sublist (map fst styles) INLINE_STYLE_NAMES
    /\ forall name : InlineStyleNames,
         styleOf styles name
         = match lastWrite JSON_parseObject config (inlineStyleRanges block)
                   name offset with
           | Some v => if styleTruthy v then Some v else None
           | None => None
           end.
Proof. apply snapshot_of_block. Qed.

(** ** Style runs *)

Lemma charsFrom_cons (blockText : string) (from count : Z) :
  0 <= count ->
  charsFrom blockText from (Z.succ count)
  = JS.charAt blockText from :: charsFrom blockText (Z.succ from) count.
Proof.
  intros Hc. unfold charsFrom. rewrite seqZ_cons by lia.
  now replace (Z.pred (Z.succ count)) with count by lia.
Qed.

Section Runs.

Variable JSON_parseObject : string -> option (list (string * string)).
Variables (inlineStyles : InlineStyles) (blockText : string).
Variables (matchKeys : list InlineStyleNames) (first : Z).

(** The loop past its first turn keeps the single run: its start and styles
    stay, its end moves within the indices seen, its text grows at the
    back. *)
Lemma styleSections_single_run (bound : Z) (indices : list Z)
  (run : StyleSection) :
  Forall (fun i => first < i < bound) indices ->
  first < ss_end run <= bound ->
  exists run' : StyleSection,
    forEachM (styleSectionsStep inlineStyles blockText matchKeys first)
      indices [run] = Ok [run']
    /\ styles run' = styles run
    /\ ss_start run' = ss_start run
    /\ first < ss_end run' <= bound
    /\ (exists more, ss_text run' = ss_text run ++ more
                     /\ (length more <= length indices)%nat).
Proof.
  intros Hall. revert run. induction Hall as [|i indices Hi _ IH];
    intros run Hend.
  - exists run. repeat split; try lia. exists []. now rewrite app_nil_r.
  - cbn [forEachM]. unfold styleSectionsStep at 1.
    destruct (decide (i = first)) as [?|_]; [lia|].
    destruct (sameStyleAsPrevious inlineStyles matchKeys i).
    + cbn [extendLast obind].
      destruct (IH {| styles := styles run;
                      ss_text := ss_text run ++ [JS.charAt blockText i];
                      ss_start := ss_start run; ss_end := i + 1 |})
        as (run' & Hrun & Hst & Hs & He & more & Ht & Hlen); [simpl; lia|].
      exists run'. split; [exact Hrun|]. repeat split; auto; try lia.
      exists (JS.charAt blockText i :: more). simpl in Ht.
      rewrite Ht, <- app_assoc. split; [reflexivity | simpl; lia].
    + cbn [obind]. destruct (IH run Hend)
        as (run' & Hrun & Hst & Hs & He & more & Ht & Hlen).
      exists run'. split; [exact Hrun|]. repeat split; auto; try lia.
      exists more. split; [exact Ht | simpl; lia].
Qed.

(** When every index compares equal to its predecessor the run takes every
    character. *)
Lemma styleSections_uniform_run (count : nat) (from : Z) (run : StyleSection) :
  first < from ->
  ss_end run = from ->
  (forall i, from <= i < from + Z.of_nat count ->
             sameStyleAsPrevious inlineStyles matchKeys i = true) ->
  forEachM (styleSectionsStep inlineStyles blockText matchKeys first)
    (seqZ from (Z.of_nat count)) [run]
  = Ok [{| styles := styles run;
           ss_text := ss_text run ++ charsFrom blockText from (Z.of_nat count);
           ss_start := ss_start run;
           ss_end := from + Z.of_nat count |}].
Proof.
  revert from run; induction count as [|count IH]; intros from run Hfrom Hend Hsame.
  - unfold charsFrom. simpl. rewrite app_nil_r, Z.add_0_r, <- Hend.
    now destruct run.
  - rewrite Nat2Z.inj_succ, seqZ_cons by lia.
    cbn [forEachM]. unfold styleSectionsStep at 1.
    destruct (decide (from = first)) as [?|_]; [lia|].
    rewrite Hsame by lia. cbn [extendLast obind].
    replace (Z.pred (Z.succ (Z.of_nat count))) with (Z.of_nat count) by lia.
    rewrite IH; [|lia|reflexivity|intros i Hi; apply Hsame; lia].
    cbn [styles ss_text ss_start ss_end].
    rewrite (charsFrom_cons blockText from (Z.of_nat count)) by lia.
    rewrite <- app_assoc. cbn [app].
    replace (Z.succ from + Z.of_nat count)
      with (from + Z.succ (Z.of_nat count)) by lia.
    reflexivity.
Qed.

End Runs.

(** The shape of what [getStyleSections] returns. *)
Lemma one_run_shape
  (JSON_parseObject : string -> option (list (string * string)))
  (block : Block) (matchKeys : list InlineStyleNames) (start end_ : Z)
  (config : option Config) :
  (text block = EmptyString \/ end_ <= start ->
   getStyleSections JSON_parseObject block matchKeys start end_ config = Ok [])
  /\ (text block <> EmptyString -> start < end_ ->
      exists run : StyleSection,
        getStyleSections JSON_parseObject block matchKeys start end_ config
        = Ok [run]
        /\ getStylesAtOffset
             (getStyleArrayForBlock JSON_parseObject block config) start
           = Ok (styles run)
        /\ ss_start run = start
        /\ start < ss_end run <= end_
        /\ exists more : list string,
             ss_text run = JS.charAt (text block) start :: more
             /\ Z.of_nat (length more) < end_ - start).
Proof.
  unfold getStyleSections. split.
  - intros [Hempty|Hspan].
    + now rewrite Hempty.
    + destruct (0 <? JS.len (text block)); [|reflexivity].
      now rewrite seqZ_nil by lia.
  - intros Htext Hspan.
    assert (Hlen : 0 < JS.len (text block)).
    { pose proof (len_nonneg (text block)).
      destruct (decide (JS.len (text block) = 0)) as [E|?]; [|lia].
      apply len_empty_iff in E. contradiction. }
    apply Z.ltb_lt in Hlen. rewrite Hlen.
    destruct (snapshot_of_block JSON_parseObject block config start)
      as (snapshot & Hsnap & _).
    rewrite seqZ_cons by lia. cbn [forEachM].
    unfold styleSectionsStep at 1.
    destruct (decide (start = start)) as [_|?]; [|contradiction].
    rewrite Hsnap. cbn [obind app].
    destruct (styleSections_single_run
                (getStyleArrayForBlock JSON_parseObject block config)
                (text block) matchKeys start end_
                (seqZ (Z.succ start) (Z.pred (end_ - start)))
                {| styles := snapshot;
                   ss_text := [JS.charAt (text block) start];
                   ss_start := start; ss_end := start + 1 |})
      as (run & Hrun & Hst & Hs & He & more & Ht & Hmore).
    { apply Forall_forall. intros i Hi. apply elem_of_seqZ in Hi. lia. }
    { simpl. lia. }
    exists run. split; [exact Hrun|]. rewrite Hst. simpl in *.
    split; [reflexivity|]. split; [exact Hs|]. split; [exact He|].
    exists more. split; [exact Ht|].
    rewrite length_seqZ in Hmore. lia.
Qed.

(** X9: [getStyleSections] never throws, and it returns at most one run.
    For an empty text or an empty span it returns no run.  Otherwise it
    returns exactly one: the run starts at [start], ends inside the span,
    carries the style snapshot taken at [start], and its text begins with the
    character at [start] and holds at most one character per index of the
    span. *)
Theorem getStyleSections_one_run
  (JSON_parseObject : string -> option (list (string * string)))
  (block : Block) (matchKeys : list InlineStyleNames) (start end_ : Z)
  (config : option Config) :
  (text block = EmptyString \/ end_ <= start ->
   getStyleSections JSON_parseObject block matchKeys start end_ config = Ok [])
  /\ (text block <> EmptyString -> start < end_ ->
      exists run : StyleSection,
        getStyleSections JSON_parseObject block matchKeys start end_ config
        = Ok [run]
        /\ getStylesAtOffset
             (getStyleArrayForBlock JSON_parseObject block config) start
           = Ok (styles run)
        /\ ss_start run = start
        /\ start < ss_end run <= end_
        /\ exists more : list string,
             ss_text run = JS.charAt (text block) start :: more
             /\ Z.of_nat (length more) < end_ - start).
Proof. apply one_run_shape. Qed.

Lemma getStyleSections_one_run_witness :
  exists run : StyleSection,
    getStyleSections (fun _ => None) boldFirstBlock BOOLEAN_INLINE_STYLE_NAMES
      0 3 None = Ok [run]
    /\ ss_start run = 0 /\ 0 < ss_end run <= 3.
Proof.
  destruct (proj2 (getStyleSections_one_run (fun _ => None) boldFirstBlock
                     BOOLEAN_INLINE_STYLE_NAMES 0 3 None))
    as (run & Hrun & _ & Hs & He & _).
  - discriminate.
  - lia.
  - exists run. auto.
Defined.

(** A span of unchanging styles is one run. *)
Lemma uniform_span_run
  (JSON_parseObject : string -> option (list (string * string)))
  (block : Block) (matchKeys : list InlineStyleNames) (start end_ : Z)
  (config : option Config) :
  text block <> EmptyString ->
  start < end_ ->
  (forall i, start < i < end_ ->
     sameStyleAsPrevious (getStyleArrayForBlock JSON_parseObject block config)
       matchKeys i = true) ->
  exists snapshot : SingleInlineStyles,
    getStylesAtOffset (getStyleArrayForBlock JSON_parseObject block config)
      start = Ok snapshot
    /\ getStyleSections JSON_parseObject block matchKeys start end_ config
       = Ok [{| styles := snapshot;
                ss_text := charsFrom (text block) start (end_ - start);
                ss_start := start; ss_end := end_ |}].
Proof.
  intros Htext Hspan Hsame.
  destruct (snapshot_of_block JSON_parseObject block config start)
    as (snapshot & Hsnap & _).
  exists snapshot. split; [exact Hsnap|].
  unfold getStyleSections.
  assert (Hlen : 0 < JS.len (text block)).
  { pose proof (len_nonneg (text block)).
    destruct (decide (JS.len (text block) = 0)) as [E|?]; [|lia].
    apply len_empty_iff in E. contradiction. }
  apply Z.ltb_lt in Hlen. rewrite Hlen.
  rewrite seqZ_cons by lia. cbn [forEachM].
  unfold styleSectionsStep at 1.
  destruct (decide (start = start)) as [_|?]; [|contradiction].
  rewrite Hsnap. cbn [obind app].
  replace (Z.pred (end_ - start))
    with (Z.of_nat (Z.to_nat (end_ - start - 1))) by lia.
  rewrite styleSections_uniform_run; [|lia|simpl; lia|].
  - cbn [styles ss_text ss_start ss_end].
    assert (E : charsFrom (text block) start (end_ - start)
                = JS.charAt (text block) start
                    :: charsFrom (text block) (Z.succ start)
                         (Z.of_nat (Z.to_nat (end_ - start - 1)))).
    { rewrite <- charsFrom_cons by lia. f_equal. lia. }
    rewrite E. cbn [app].
    replace (Z.succ start + Z.of_nat (Z.to_nat (end_ - start - 1)))
      with end_ by lia.
    reflexivity.
  - intros i Hi. apply Hsame. lia.
Qed.

(** X10: where the styles of the family do not change inside the span, the
    single run of [getStyleSections] is the whole span: it ends at [end] and
    its text holds every character of the span, in order. *)
Theorem getStyleSections_uniform_span
  (JSON_parseObject : string -> option (list (string * string)))
  (block : Block) (matchKeys : list InlineStyleNames) (start end_ : Z)
  (config : option Config) :
  text block <> EmptyString ->
  start < end_ ->
  (forall i, start < i < end_ ->
     sameStyleAsPrevious (getStyleArrayForBlock JSON_parseObject block config)
       matchKeys i = true) ->
  exists snapshot : SingleInlineStyles,
    getStylesAtOffset (getStyleArrayForBlock JSON_parseObject block config)
      start = Ok snapshot
    /\ getStyleSections JSON_parseObject block matchKeys start end_ config
       = Ok [{| styles := snapshot;
                ss_text := charsFrom (text block) start (end_ - start);
                ss_start := start; ss_end := end_ |}].
Proof. apply uniform_span_run. Qed.

Lemma getStyleSections_uniform_span_witness :
  exists snapshot : SingleInlineStyles,
    getStyleSections (fun _ => None) boldRedBlock BOOLEAN_INLINE_STYLE_NAMES
      0 2 None
    = Ok [{| styles := snapshot; ss_text := ["a"; "b"];
             ss_start := 0; ss_end := 2 |}].
Proof.
  destruct (getStyleSections_uniform_span (fun _ => None) boldRedBlock
              BOOLEAN_INLINE_STYLE_NAMES 0 2 None)
    as (snapshot & _ & Hrun).
  - discriminate.
  - lia.
  - intros i Hi. assert (i = 1) as -> by lia. vm_compute. reflexivity.
  - exists snapshot. exact Hrun.
Defined.

(** ** Blocks without styles *)

Lemma sameStyleAsPrevious_empty (length : Z) (matchKeys : list InlineStyleNames)
  (i : Z) :
  0 < i < length ->
  sameStyleAsPrevious (emptyInlineStyles length) matchKeys i = true.
Proof.
  intros Hi. apply sameStyleAsPrevious_true_iff. split; [exact Hi|].
  intros key _. unfold sameAt. simpl. now rewrite !lookup_empty.
Qed.

Lemma getStylesAtOffset_empty (length offset : Z) :
  getStylesAtOffset (emptyInlineStyles length) offset = Ok [].
Proof. reflexivity. Qed.

Lemma charAt_cons (c : ascii) (s : string) (i : Z) :
  0 <= i -> JS.charAt (String c s) (Z.succ i) = JS.charAt s i.
Proof.
  intros Hi. unfold JS.charAt, JS.len. cbn [String.length].
  destruct (Z.leb_spec 0 (Z.succ i)); [|lia].
  destruct (Z.leb_spec 0 i); [|lia]. simpl.
  destruct (Z.ltb_spec (Z.succ i) (Z.of_nat (S (String.length s))));
    destruct (Z.ltb_spec i (Z.of_nat (String.length s))); try lia;
    [|reflexivity].
  replace (Z.to_nat (Z.succ i)) with (S (Z.to_nat i)) by lia.
  reflexivity.
Qed.

Lemma charsFrom_shift (c : ascii) (s : string) (count : nat) (from : Z) :
  0 <= from ->
  charsFrom (String c s) (Z.succ from) (Z.of_nat count)
  = charsFrom s from (Z.of_nat count).
Proof.
  revert from; induction count as [|count IH]; intros from Hfrom;
    [reflexivity|].
  rewrite Nat2Z.inj_succ, !charsFrom_cons by lia.
  rewrite charAt_cons by lia. f_equal. apply IH. lia.
Qed.

Lemma charsFrom_all (s : string) : charsFrom s 0 (JS.len s) = chars s.
Proof.
  induction s as [|c s IH]; [reflexivity|].
  unfold JS.len in *. cbn [String.length]. rewrite Nat2Z.inj_succ.
  rewrite charsFrom_cons by lia.
  rewrite charsFrom_shift by lia. rewrite IH.
  unfold JS.charAt, JS.len. cbn [String.length].
  destruct (Z.ltb_spec 0 (Z.of_nat (S (String.length s)))); [|lia].
  simpl. now destruct s.
Qed.

Section Plain.

Variable JSON_parseObject : string -> option (list (string * string)).
Variables (block : Block) (config : option Config).
Hypothesis no_styles : inlineStyleRanges block = [].

Lemma getStyleArrayForBlock_plain :
  getStyleArrayForBlock JSON_parseObject block config
  = emptyInlineStyles (JS.len (text block)).
Proof. unfold getStyleArrayForBlock. now rewrite no_styles. Qed.

Lemma getStyleSections_plain (matchKeys : list InlineStyleNames)
  (from to : Z) :
  0 <= from < to -> to <= JS.len (text block) ->
  getStyleSections JSON_parseObject block matchKeys from to config
  = Ok [{| styles := []; ss_text := charsFrom (text block) from (to - from);
           ss_start := from; ss_end := to |}].
Proof.
  intros Hfrom Hto.
  destruct (uniform_span_run JSON_parseObject block matchKeys
              from to config) as (snapshot & Hsnap & Hrun).
  - intros E. rewrite E in Hto. unfold JS.len in Hto. simpl in Hto. lia.
  - lia.
  - intros i Hi. rewrite getStyleArrayForBlock_plain.
    apply sameStyleAsPrevious_empty. lia.
  - rewrite getStyleArrayForBlock_plain, getStylesAtOffset_empty in Hsnap.
    injection Hsnap as <-. exact Hrun.
Qed.

(** The markdown of a section of a block without style ranges, before the
    entity or hashtag wrapping: the escaped characters of the section. *)
Lemma getSectionMarkdown_plain (entityMap : EntityMap) (section : Sect)
  (customEntityTransform : option CustomEntityTransform) :
  0 <= start section < end_ section ->
  end_ section <= JS.len (text block) ->
  stype section = None ->
  getSectionMarkdown JSON_parseObject block entityMap section
    customEntityTransform config
  = Ok (getSectionText
          (charsFrom (text block) (start section)
             (end_ section - start section))).
Proof.
  intros Hfrom Hto Hplain. unfold getSectionMarkdown.
  rewrite getStyleSections_plain by assumption.
  cbn [obind forEachM]. unfold styleSectionStep.
  cbn [ss_start ss_end styles].
  rewrite getStyleSections_plain by assumption.
  cbn [obind map]. rewrite Hplain.
  unfold stylePropertyText, getStyleTagSectionMarkdown, addStylePropertyMarkdown.
  cbn [fold_left styles ss_text]. unfold JS.join. cbn [fold_right].
  now rewrite append_empty_r.
Qed.

End Plain.

(** X11: a block with no entity ranges, no style ranges and no hashtag
    renders as its own text, escaped character by character, with the
    leading spaces turned into [&nbsp;]; nothing else is added or lost.  (The
    trailing spaces stay: the block has a single section.) *)
Theorem getBlockContentMarkdown_plain_text
  (JSON_parseObject : string -> option (list (string * string)))
  (block : Block) (entityMap : EntityMap) (hashConfig : HashConfig)
  (customEntityTransform : option CustomEntityTransform)
  (config : option Config) :
  entityRanges block = [] ->
  inlineStyleRanges block = [] ->
  getHashtagRanges (text block) hashConfig = Ok [] ->
  getBlockContentMarkdown JSON_parseObject block entityMap hashConfig
    customEntityTransform config
  = Ok (trimLeadingZeros (getSectionText (chars (text block)))).
Proof.
  intros Hentities Hstyles Hhash.
  assert (Hatomic : isAtomicBlock block = false).
  { unfold isAtomicBlock. now rewrite Hentities. }
  destruct (text block) as [|c s] eqn:Htext.
  - unfold getBlockContentMarkdown, getSections.
    rewrite Hatomic, Htext, Hhash, Hentities. reflexivity.
  - assert (Hlen : 0 < JS.len (text block)).
    { rewrite Htext. unfold JS.len. cbn [String.length]. lia. }
    rewrite <- Htext in *.
    rewrite (single_section_gets_leading_escape_only JSON_parseObject block
               entityMap hashConfig customEntityTransform config
               {| start := 0; end_ := JS.len (text block);
                  entityKey := None; stype := None |} Hatomic).
    + rewrite getSectionMarkdown_plain; simpl; try lia; auto.
      now rewrite Z.sub_0_r, charsFrom_all.
    + unfold getSections. rewrite Hhash, Hentities. simpl.
      unfold sectionsOfRanges. simpl.
      apply Z.ltb_lt in Hlen. now rewrite Hlen.
Qed.

Lemma getBlockContentMarkdown_plain_text_witness :
  getBlockContentMarkdown (fun _ => None) paddedBlock ∅ defaultHashConfig
    None None
  = Ok (trimLeadingZeros (getSectionText (chars "  a b  "))).
Proof.
  apply (getBlockContentMarkdown_plain_text (fun _ => None) paddedBlock ∅
           defaultHashConfig None None); vm_compute; reflexivity.
Defined.

(** ** White space at the ends of a block, continued *)

Lemma repeat_snoc (s : string) (n : nat) :
  JS.repeat s n +:+ s = s +:+ JS.repeat s n.
Proof.
  induction n as [|n IH]; cbn [JS.repeat]; [now rewrite append_empty_r|].
  now rewrite append_assoc, IH.
Qed.

Lemma length_repeat (s : string) (n : nat) :
  String.length (JS.repeat s n) = (n * String.length s)%nat.
Proof.
  induction n as [|n IH]; cbn [JS.repeat]; [reflexivity|].
  rewrite length_append, IH. lia.
Qed.

Lemma substring_skip (p t : string) (m : nat) :
  String.substring (String.length p) m (p +:+ t) = String.substring 0 m t.
Proof.
  induction p as [|c p IH]; [reflexivity|].
  rewrite append_cons. cbn [String.length String.substring]. exact IH.
Qed.

Lemma substring_ge (t : string) (m : nat) :
  (String.length t <= m)%nat -> String.substring 0 m t = t.
Proof.
  revert m; induction t as [|c t IH]; intros m Hm.
  - now destruct m.
  - destruct m as [|m]; [simpl in Hm; lia|].
    cbn [String.substring]. f_equal. apply IH. simpl in Hm. lia.
Qed.

Lemma substring_take (p t : string) :
  String.substring 0 (String.length p) (p +:+ t) = p.
Proof.
  induction p as [|c p IH]; [now destruct t|].
  rewrite append_cons. cbn [String.length String.substring]. now f_equal.
Qed.

Lemma substrFrom_app (p t : string) :
  JS.substrFrom (p +:+ t) (JS.len p) = t.
Proof.
  unfold JS.substrFrom, JS.substr, JS.len. rewrite length_append.
  destruct (Z.ltb_spec (Z.of_nat (String.length p)) 0); [lia|].
  replace (Z.to_nat (Z.min _ _)) with (String.length p) by lia.
  rewrite substring_skip. apply substring_ge. lia.
Qed.

Lemma prefix_space (t : string) : String.prefix " " (String " " t) = true.
Proof. simpl. now destruct t. Qed.

Lemma replaceFirst_space (t : string) :
  replaceFirst (String " " t) " " "&nbsp;" = "&nbsp;" +:+ t.
Proof.
  cbn [replaceFirst]. rewrite prefix_space.
  change (String " " t) with (" " +:+ t).
  change (JS.len " ") with (JS.len " ").
  now rewrite (substrFrom_app " " t).
Qed.

Lemma replaceFirst_skip (c : ascii) (x : string) :
  c <> " "%char ->
  replaceFirst (String c x) " " "&nbsp;"
  = String c (replaceFirst x " " "&nbsp;").
Proof.
  intros Hc. cbn [replaceFirst].
  replace (String.prefix " " (String c x)) with false; [reflexivity|].
  cbn [String.prefix]. destruct (ascii_dec " " c); [congruence | reflexivity].
Qed.

Lemma replaceFirst_after_nbsp (k : nat) (t : string) :
  replaceFirst (JS.repeat "&nbsp;" k +:+ String " " t) " " "&nbsp;"
  = JS.repeat "&nbsp;" k +:+ "&nbsp;" +:+ t.
Proof.
  induction k as [|k IH]; [apply replaceFirst_space|].
  cbn [JS.repeat]. rewrite !append_assoc.
  change ("&nbsp;" +:+ ?x) with
    (String "&" (String "n" (String "b" (String "s" (String "p"
       (String ";" x)))))).
  rewrite !replaceFirst_skip by discriminate. now rewrite IH.
Qed.

(** The loop of [trimLeadingZeros] after [k] spaces are escaped and [m]
    are left. *)
Lemma trimLeadingLoop_spaces (m k : nat) (rest : string) :
  JS.startsWith rest " " = false ->
  trimLeadingLoop (JS.repeat " " m +:+ rest) (Z.of_nat k)
    (JS.repeat "&nbsp;" k +:+ JS.repeat " " m +:+ rest)
  = JS.repeat "&nbsp;" (k + m) +:+ rest.
Proof.
  intros Hrest. revert k; induction m as [|m IH]; intros k.
  - cbn [JS.repeat]. change (EmptyString +:+ rest) with rest.
    rewrite Nat.add_0_r.
    destruct rest as [|c rest]; [reflexivity|]. cbn [trimLeadingLoop].
    destruct (decide (c = " "%char)) as [->|Hc].
    + unfold JS.startsWith in Hrest. rewrite prefix_space in Hrest.
      discriminate.
    + rewrite (bool_decide_eq_false_2 _ Hc). now rewrite andb_false_r.
  - cbn [JS.repeat]. rewrite append_assoc.
    change (" " +:+ ?x) with (String " " x).
    cbn [trimLeadingLoop].
    rewrite bool_decide_eq_true_2 by reflexivity. rewrite andb_true_r.
    destruct (Z.ltb_spec (Z.of_nat k)
                (JS.len (JS.repeat "&nbsp;" k
                         +:+ String " " (JS.repeat " " m +:+ rest)))) as [_|Hge].
    + rewrite replaceFirst_after_nbsp.
      rewrite <- append_assoc, repeat_snoc.
      change ("&nbsp;" +:+ JS.repeat "&nbsp;" k) with (JS.repeat "&nbsp;" (S k)).
      replace (Z.of_nat k + 1) with (Z.of_nat (S k)) by lia.
      rewrite IH. f_equal. f_equal. lia.
    + exfalso. unfold JS.len in Hge. rewrite length_append, length_repeat in Hge.
      cbn [String.length] in Hge. lia.
Qed.

Lemma substring_skip_more (p t : string) (j m : nat) :
  String.substring (String.length p + j) m (p +:+ t) = String.substring j m t.
Proof.
  induction p as [|c p IH]; [reflexivity|].
  rewrite append_cons. cbn [String.length String.substring Nat.add]. exact IH.
Qed.

Lemma substring_in_prefix (p t : string) (n : nat) :
  (n < String.length p)%nat ->
  String.substring n 1 (p +:+ t) = String.substring n 1 p.
Proof.
  revert n; induction p as [|c p IH]; intros n Hn; [simpl in Hn; lia|].
  rewrite append_cons. destruct n as [|n].
  - cbn [String.substring]. f_equal. now destruct p, t.
  - cbn [String.substring]. apply IH. simpl in Hn. lia.
Qed.

Lemma charAt_app_l (p t : string) (i : Z) :
  0 <= i < JS.len p -> JS.charAt (p +:+ t) i = JS.charAt p i.
Proof.
  intros Hi. unfold JS.charAt, JS.len in *. rewrite length_append.
  destruct (Z.leb_spec 0 i); [|lia]. simpl.
  destruct (Z.ltb_spec i (Z.of_nat (String.length p + String.length t)));
    [|lia].
  destruct (Z.ltb_spec i (Z.of_nat (String.length p))); [|lia].
  apply substring_in_prefix. lia.
Qed.

Lemma charAt_app_at (p t : string) (c : ascii) :
  JS.charAt (p +:+ String c t) (JS.len p) = String c EmptyString.
Proof.
  unfold JS.charAt, JS.len. rewrite length_append. cbn [String.length].
  destruct (Z.leb_spec 0 (Z.of_nat (String.length p))); [|lia]. simpl.
  destruct (Z.ltb_spec (Z.of_nat (String.length p))
              (Z.of_nat (String.length p + S (String.length t)))); [|lia].
  rewrite Nat2Z.id.
  rewrite <- (Nat.add_0_r (String.length p)) at 1.
  rewrite substring_skip_more. cbn [String.substring]. now destruct t.
Qed.

Lemma substring_app_prefix (p t : string) :
  JS.substring (p +:+ t) 0 (JS.len p) = p.
Proof.
  unfold JS.substring, JS.len. rewrite length_append.
  replace (Z.to_nat (Z.min _ _)) with 0%nat by lia.
  replace (Z.to_nat (_ - _)) with (String.length p) by lia.
  apply substring_take.
Qed.

Lemma substringFrom_app_after (p t : string) (c : ascii) :
  JS.substringFrom (p +:+ String c t) (JS.len p + 1) = t.
Proof.
  unfold JS.substringFrom, JS.substring, JS.len. rewrite length_append.
  cbn [String.length].
  replace (Z.to_nat (Z.min _ _)) with (String.length p + 1)%nat by lia.
  replace (Z.to_nat (_ - _)) with (String.length t) by lia.
  rewrite substring_skip_more. cbn [String.substring]. apply substring_all.
Qed.

(** The loop of [trimTrailingZeros] with [m] spaces left and [k] escaped. *)
Lemma trimTrailingLoop_spaces (m k : nat) (rest : string) :
  JS.charAt rest (JS.len rest - 1) <> " " ->
  trimTrailingLoop (String.length rest + m)
    (rest +:+ JS.repeat " " m +:+ JS.repeat "&nbsp;" k)
  = rest +:+ JS.repeat "&nbsp;" (m + k).
Proof.
  intros Hrest. revert k; induction m as [|m IH]; intros k.
  - cbn [JS.repeat]. change (EmptyString +:+ ?x) with x.
    rewrite Nat.add_0_r. simpl (0 + k)%nat.
    destruct (String.length rest) as [|i'] eqn:Hlen; [reflexivity|].
    cbn [trimTrailingLoop].
    rewrite charAt_app_l by (unfold JS.len; lia).
    replace (Z.of_nat i') with (JS.len rest - 1) by (unfold JS.len; lia).
    now rewrite decide_False by exact Hrest.
  - replace (String.length rest + S m)%nat
      with (S (String.length rest + m)) by lia.
    cbn [trimTrailingLoop].
    assert (E : rest +:+ JS.repeat " " (S m) +:+ JS.repeat "&nbsp;" k
                = (rest +:+ JS.repeat " " m)
                    +:+ String " " (JS.repeat "&nbsp;" k)).
    { cbn [JS.repeat]. rewrite <- repeat_snoc, !append_assoc. reflexivity. }
    rewrite E.
    assert (Hp : Z.of_nat (String.length rest + m)
                 = JS.len (rest +:+ JS.repeat " " m)).
    { unfold JS.len. rewrite length_append, length_repeat.
      cbn [String.length]. lia. }
    rewrite Hp, charAt_app_at, decide_True by reflexivity.
    rewrite substring_app_prefix, substringFrom_app_after.
    change ("&nbsp;" +:+ JS.repeat "&nbsp;" k) with (JS.repeat "&nbsp;" (S k)).
    rewrite append_assoc, IH. f_equal. f_equal. lia.
Qed.

(** X12: [trimLeadingZeros] replaces exactly the leading run of spaces: a
    text made of [n] spaces followed by a rest that does not start with a
    space becomes [n] times [&nbsp;] followed by the same rest.  Spaces
    further inside are left alone, and a text without a leading space is
    returned as it is. *)
Theorem trimLeadingZeros_leading_run (n : nat) (rest : string) :
  JS.startsWith rest " " = false ->
  trimLeadingZeros (JS.repeat " " n +:+ rest)
  = JS.repeat "&nbsp;" n +:+ rest.
Proof.
  intros Hrest. unfold trimLeadingZeros.
  exact (trimLeadingLoop_spaces n 0 rest Hrest).
Qed.

Lemma trimLeadingZeros_leading_run_witness :
  trimLeadingZeros (JS.repeat " " 2 +:+ "a  b ")
  = JS.repeat "&nbsp;" 2 +:+ "a  b ".
Proof. apply (trimLeadingZeros_leading_run 2 "a  b "). reflexivity. Defined.

(** X13: [trimTrailingZeros] replaces exactly the trailing run of spaces: a
    text made of a rest that does not end with a space followed by [n]
    spaces becomes the same rest followed by [n] times [&nbsp;]. *)
Theorem trimTrailingZeros_trailing_run (n : nat) (rest : string) :
  JS.charAt rest (JS.len rest - 1) <> " " ->
  trimTrailingZeros (rest +:+ JS.repeat " " n)
  = rest +:+ JS.repeat "&nbsp;" n.
Proof.
  intros Hrest. unfold trimTrailingZeros.
  rewrite length_append, length_repeat. cbn [String.length].
  rewrite Nat.mul_1_r.
  pose proof (trimTrailingLoop_spaces n 0 rest Hrest) as H.
  cbn [JS.repeat] in H. rewrite append_empty_r, Nat.add_0_r in H. exact H.
Qed.

Lemma trimTrailingZeros_trailing_run_witness :
  trimTrailingZeros (" a  b" +:+ JS.repeat " " 2)
  = " a  b" +:+ JS.repeat "&nbsp;" 2.
Proof.
  apply (trimTrailingZeros_trailing_run 2 " a  b"). vm_compute. discriminate.
Defined.
(** ** Text escaping, continued *)




(** ** Atomic blocks, continued *)

Lemma trimStart_empty_inv (s : string) :
  JS.trimStart s = EmptyString ->
  Forall (fun c => JS.isWhiteSpace c = true) (list_ascii_of_string s).
Proof.
  induction s as [|c s IH]; [constructor|]. cbn [JS.trimStart].
  destruct (JS.isWhiteSpace c) eqn:Hc; [|discriminate].
  intros H. constructor; [exact Hc | now apply IH].
Qed.

Lemma trimStart_dropped (s : string) :
  Forall (fun c => JS.isWhiteSpace c = true)
    (list_ascii_of_string (JS.trimStart s)) ->
  Forall (fun c => JS.isWhiteSpace c = true) (list_ascii_of_string s).
Proof.
  induction s as [|c s IH]; [constructor|]. cbn [JS.trimStart].
  destruct (JS.isWhiteSpace c) eqn:Hc; [|auto].
  intros H. constructor; [exact Hc | now apply IH].
Qed.

Lemma rev_empty_inv (s : string) : JS.rev s = EmptyString -> s = EmptyString.
Proof.
  unfold JS.rev. intros H.
  apply (f_equal list_ascii_of_string) in H.
  rewrite list_ascii_of_string_of_list_ascii in H. simpl in H.
  apply (f_equal (@List.rev ascii)) in H. rewrite List.rev_involutive in H.
  simpl in H. apply (f_equal string_of_list_ascii) in H.
  now rewrite string_of_list_ascii_of_string in H.
Qed.

(** X15: [isEmptyString] answers [true] exactly for the strings that hold
    nothing but white space (the empty string among them), so a block is
    atomic exactly when it has at least one entity range and its text is white
    space only. *)
Theorem isAtomicBlock_iff (block : Block) :
  (isEmptyString (text block) = true
   <-> Forall (fun c => JS.isWhiteSpace c = true)
         (list_ascii_of_string (text block)))
  /\ (isAtomicBlock block = true
      <-> entityRanges block <> []
          /\ Forall (fun c => JS.isWhiteSpace c = true)
               (list_ascii_of_string (text block))).
Proof.
  assert (Hempty : isEmptyString (text block) = true
                   <-> Forall (fun c => JS.isWhiteSpace c = true)
                         (list_ascii_of_string (text block))).
  { split; [|apply isEmptyString_whitespace].
    unfold isEmptyString. intros [H|H]%orb_prop; apply Z.eqb_eq in H;
      apply len_empty_iff in H.
    - rewrite H. constructor.
    - unfold JS.trim in H. apply rev_empty_inv in H.
      apply trimStart_empty_inv in H.
      apply trimStart_dropped.
      unfold JS.rev in H. rewrite list_ascii_of_string_of_list_ascii in H.
      apply Forall_forall. intros c Hc.
      rewrite Forall_forall in H. apply H.
      apply list_elem_of_In. apply List.in_rev. rewrite List.rev_involutive.
      now apply list_elem_of_In. }
  split; [exact Hempty|].
  unfold isAtomicBlock. rewrite andb_true_iff, Hempty.
  destruct (entityRanges block) as [|r rs]; simpl.
  - split; [intros [H _]; discriminate | intros [H _]; contradiction].
  - split; intros [_ H]; (split; [|exact H]); [discriminate|reflexivity].
Qed.
(** ** Style markup *)

(** X16: [customStyleTransform] is laid over the default table entry by
    entry.  A style it names is wrapped with its token, or not wrapped at all
    when the entry is [undefined]; a style it does not name keeps the default
    token. *)
Theorem customStyleTransform_overrides (c : Config)
  (custom : gmap string (option StyleToken)) (style content : string) :
  customStyleTransform c = Some custom ->
  (forall entry : option StyleToken,
      custom !! style = Some entry ->
      addInlineStyleMarkdown style content (styleTransformOf (Some c))
      = match entry with
        | None => content
        | Some (Token value) => value +:+ content +:+ value
        | Some (TokenPair l r) => l +:+ content +:+ r
        end)
  /\ (custom !! style = None ->
      addInlineStyleMarkdown style content (styleTransformOf (Some c))
      = addInlineStyleMarkdown style content defaultStyleTransform).
Proof.
  intros Hc. unfold styleTransformOf, addInlineStyleMarkdown. rewrite Hc.
  split.
  - intros entry Hentry.
    rewrite (lookup_union_Some_l _ _ _ _ Hentry).
    now destruct entry as [[?|? ?]|].
  - intros Hnone. now rewrite (lookup_union_r _ _ _ Hnone).
Qed.

Lemma customStyleTransform_overrides_witness :
  addInlineStyleMarkdown "BOLD" "x"
    (styleTransformOf
       (Some {| customStyleTransform :=
                  Some {[ "BOLD" := None; "ITALIC" := Some (Token "_") ]};
                emptyLineBeforeBlock := None; printBreakLineLiteral := None;
                blockTypesMapping := None; rawCssInlineStyles := None |}))
  = "x".
Proof.
  refine (proj1 (customStyleTransform_overrides
            {| customStyleTransform :=
                 Some {[ "BOLD" := None; "ITALIC" := Some (Token "_") ]};
               emptyLineBeforeBlock := None; printBreakLineLiteral := None;
               blockTypesMapping := None; rawCssInlineStyles := None |}
            {[ "BOLD" := None; "ITALIC" := Some (Token "_") ]} "BOLD" "x" _)
          None _); vm_compute; reflexivity.
Defined.


Lemma stylePropertyStep_none (styles : SingleInlineStyles)
  (names : list InlineStyleNames) (acc : string * string) :
  (forall name, name ∈ names -> styleOf styles name = None) ->
  fold_left (stylePropertyStep styles) names acc = acc.
Proof.
  revert acc; induction names as [|name names IH]; intros acc Hnone;
    [reflexivity|].
  cbn [fold_left]. unfold stylePropertyStep at 2. destruct acc as [s e].
  rewrite (Hnone name) by apply list_elem_of_here.
  apply IH. intros k Hk. apply Hnone. now apply list_elem_of_further.
Qed.

(** X18: the span of [addStylePropertyMarkdown].  A run whose snapshot holds
    no string style (a bold-only run, say) is rendered as its escaped text
    with no span around it.  A run whose only string style is COLOR with the
    value [colour] is rendered as
    [<span style="color: colour;" data-color="true">text</span>]. *)
Theorem addStylePropertyMarkdown_span (styleSection : StyleSection) :
  ((forall name, name ∈ STRING_INLINE_STYLE_NAMES ->
                 styleOf (styles styleSection) name = None) ->
   addStylePropertyMarkdown styleSection
   = getSectionText (ss_text styleSection))
  /\ (forall colour : string,
        styleOf (styles styleSection) COLOR = Some (SStr colour) ->
        (forall name, name ∈ [BGCOLOR; FONTSIZE; FONTFAMILY; RAWCSS] ->
                      styleOf (styles styleSection) name = None) ->
        addStylePropertyMarkdown styleSection
        = "<span style=" +:+ dq +:+ "color: " +:+ colour +:+ ";" +:+ dq
            +:+ " data-color=" +:+ dq +:+ "true" +:+ dq +:+ ">"
            +:+ getSectionText (ss_text styleSection) +:+ "</span>").
Proof.
  unfold addStylePropertyMarkdown. split.
  - intros Hnone. destruct (styles styleSection) as [|entry rest] eqn:E;
      [reflexivity|].
    rewrite <- E. rewrite stylePropertyStep_none by (rewrite E; exact Hnone).
    reflexivity.
  - intros colour Hcolour Hnone.
    destruct (styles styleSection) as [|entry rest] eqn:E; [discriminate|].
    rewrite <- E in *.
    change (fold_left (stylePropertyStep (styles styleSection))
              STRING_INLINE_STYLE_NAMES (EmptyString, EmptyString))
      with (fold_left (stylePropertyStep (styles styleSection))
              [BGCOLOR; FONTSIZE; FONTFAMILY; RAWCSS]
              (stylePropertyStep (styles styleSection)
                 (EmptyString, EmptyString) COLOR)).
    unfold stylePropertyStep at 2. rewrite Hcolour. cbn [styleTemplate].
    rewrite stylePropertyStep_none by exact Hnone.
    change (EmptyString +:+ ?x) with x.
    change ("color: " +:+ colour +:+ ";")
      with (String "c" ("olor: " +:+ colour +:+ ";")).
    cbn [onlySemicolons]. rewrite decide_False by discriminate.
    change (String "c" ("olor: " +:+ colour +:+ ";"))
      with ("color: " +:+ colour +:+ ";").
    rewrite !append_assoc. reflexivity.
Qed.

Lemma addStylePropertyMarkdown_span_witness :
  addStylePropertyMarkdown
    {| styles := [(BOLD, SBool true)]; ss_text := ["a"; "<"];
       ss_start := 0; ss_end := 2 |}
  = "a&lt;".
Proof.
  refine (proj1 (addStylePropertyMarkdown_span
            {| styles := [(BOLD, SBool true)]; ss_text := ["a"; "<"];
               ss_start := 0; ss_end := 2 |}) _).
  intros name Hin. simpl.
  destruct (decide (BOLD = name)) as [<-|_]; [|reflexivity].
  exfalso. unfold STRING_INLINE_STYLE_NAMES in Hin.
  repeat (apply elem_of_cons in Hin as [Hin|Hin]; [discriminate|]).
  inversion Hin.
Defined.
(** ** Documents *)

Lemma forEachM_app {A S : Type} (f : S -> A -> Outcome S) (xs ys : list A)
  (s : S) :
  forEachM f (xs ++ ys) s = let? s' := forEachM f xs s in forEachM f ys s'.
Proof.
  revert s; induction xs as [|x xs IH]; intros s; [reflexivity|].
  cbn [app forEachM]. destruct (f s x); simpl; auto.
Qed.

Section Document.

Variable JSON_parseObject : string -> option (list (string * string)).
Variables (blockTypes : gmap string string) (entities : EntityMap).
Variables (hashConfig : HashConfig).
Variables (customEntityTransform : option CustomEntityTransform).
Variables (config : option Config).

Let step :=
  documentStep JSON_parseObject blockTypes entities hashConfig
    customEntityTransform config.

(** The rendering of a block does not look at what was rendered before. *)
Lemma documentStep_acc (markdown : list string) (block : Block) :
  step markdown block = let? out := step [] block in Ok (markdown ++ out).
Proof.
  unfold step, documentStep.
  destruct (getBlockMarkdown _ _ _ _ _ _ _) as [content| |]; simpl;
    try reflexivity.
  destruct (isList (type block)); simpl; [|reflexivity].
  destruct (getDepthPadding (depth block)); reflexivity.
Qed.

Lemma documentSteps_acc (bs : list Block) (markdown : list string) :
  forEachM step bs markdown
  = let? out := forEachM step bs [] in Ok (markdown ++ out).
Proof.
  revert markdown; induction bs as [|b bs IH]; intros markdown.
  - simpl. now rewrite app_nil_r.
  - cbn [forEachM]. rewrite (documentStep_acc markdown b).
    destruct (step [] b) as [out| |]; simpl; try reflexivity.
    rewrite (IH (markdown ++ out)), (IH out).
    destruct (forEachM step bs []) as [out'| |]; simpl; try reflexivity.
    now rewrite app_assoc.
Qed.

End Document.

(** X19: blocks are rendered one by one and share nothing.  The markdown of
    a document whose blocks are [blocks1] followed by [blocks2] is the
    markdown of [blocks1] followed by that of [blocks2]; if either part
    throws or does not return, so does the whole.  A document without blocks,
    and an absent document, give the empty string. *)
Theorem draftToMarkdown_concatenates
  (JSON_parseObject : string -> option (list (string * string)))
  (blocks1 blocks2 : list Block) (entities : EntityMap)
  (hashConfig : PartialHashConfig)
  (customEntityTransform : option CustomEntityTransform)
  (config : option Config) :
  draftToMarkdown JSON_parseObject
    (Some {| blocks := blocks1 ++ blocks2; entityMap := entities |})
    hashConfig customEntityTransform config
  = (let? markdown1 :=
       draftToMarkdown JSON_parseObject
         (Some {| blocks := blocks1; entityMap := entities |})
         hashConfig customEntityTransform config in
     let? markdown2 :=
       draftToMarkdown JSON_parseObject
         (Some {| blocks := blocks2; entityMap := entities |})
         hashConfig customEntityTransform config in
     Ok (markdown1 +:+ markdown2))
  /\ draftToMarkdown JSON_parseObject
       (Some {| blocks := []; entityMap := entities |})
       hashConfig customEntityTransform config = Ok EmptyString
  /\ draftToMarkdown JSON_parseObject None hashConfig customEntityTransform
       config = Ok EmptyString.
Proof.
  split; [|split; reflexivity].
  unfold draftToMarkdown. cbn [blocks entityMap].
  rewrite forEachM_app.
  destruct (forEachM _ blocks1 []) as [out1| |]; simpl; try reflexivity.
  rewrite documentSteps_acc.
  destruct (forEachM _ blocks2 []) as [out2| |]; simpl; try reflexivity.
  now rewrite join_app.
Qed.
Lemma getBlockMarkdown_depth
  (JSON_parseObject : string -> option (list (string * string)))
  (d : Z) (block : Block) (blockTypes : gmap string string)
  (entities : EntityMap) (hashConfig : HashConfig)
  (customEntityTransform : option CustomEntityTransform)
  (config : option Config) :
  getBlockMarkdown JSON_parseObject (withDepth d block) blockTypes entities
    hashConfig customEntityTransform config
  = getBlockMarkdown JSON_parseObject block blockTypes entities hashConfig
      customEntityTransform config.
Proof. reflexivity. Qed.

(** X20: the depth of a block only indents list items.  A block that is not
    a list item renders the same at every depth.  A list item of depth
    [d >= 0] renders as [4 * d] spaces followed by its rendering at depth 0.
    A list item of negative depth never renders: [' '.repeat] throws. *)
Theorem depth_only_indents_list_items
  (JSON_parseObject : string -> option (list (string * string)))
  (block : Block) (entities : EntityMap) (hashConfig : PartialHashConfig)
  (customEntityTransform : option CustomEntityTransform)
  (config : option Config) :
  let render b :=
    draftToMarkdown JSON_parseObject
      (Some {| blocks := [b]; entityMap := entities |})
      hashConfig customEntityTransform config in
  (isList (type block) = false -> render block = render (withDepth 0 block))
  /\ (isList (type block) = true -> 0 <= depth block ->
      render block
      = let? markdown := render (withDepth 0 block) in
        Ok (JS.repeat " " (Z.to_nat (4 * depth block)) +:+ markdown))
  /\ (isList (type block) = true -> depth block < 0 ->
      forall markdown, render block <> Ok markdown).
Proof.
  intros render. unfold render, draftToMarkdown. cbn [blocks entityMap forEachM].
  unfold documentStep. rewrite getBlockMarkdown_depth.
  change (type (withDepth 0 block)) with (type block).
  change (depth (withDepth 0 block)) with 0.
  destruct (getBlockMarkdown _ _ _ _ _ _ _) as [content| |]; simpl.
  - destruct (isList (type block)); simpl.
    + split; [discriminate|]. unfold getDepthPadding. split.
      * intros _ Hd. destruct (Z.ltb_spec (depth block) 0); [lia|]. simpl.
        unfold JS.join. simpl. rewrite !append_empty_r.
        now replace (depth block * 4) with (4 * depth block) by lia.
      * intros _ Hd. destruct (Z.ltb_spec (depth block) 0); [|lia]. simpl.
        discriminate.
    + split; [reflexivity|]. split; discriminate.
  - split; [reflexivity|]. split; [reflexivity | discriminate].
  - split; [reflexivity|]. split; [reflexivity | discriminate].
Qed.
(** ** When the rendering of a block succeeds *)

Lemma forEachM_ok {A S : Type} (f : S -> A -> Outcome S) (xs : list A) :
  (forall x, x ∈ xs -> forall s, exists s', f s x = Ok s') ->
  forall s, exists s', forEachM f xs s = Ok s'.
Proof.
  induction xs as [|x xs IH]; intros Hall s; [now exists s|].
  cbn [forEachM]. destruct (Hall x (list_elem_of_here _ _) s) as [s1 ->].
  simpl. apply IH. intros y Hy. apply Hall. now apply list_elem_of_further.
Qed.

Lemma forEachM_throws {A S : Type} (f : S -> A -> Outcome S) (xs : list A)
  (x : A) :
  (forall y s, f s y <> Diverges) ->
  x ∈ xs ->
  (forall s, f s x = Throws) ->
  forall s, forEachM f xs s = Throws.
Proof.
  intros Hnd Hin Hx. induction xs as [|y xs IH]; intros s;
    [inversion Hin|].
  cbn [forEachM]. apply elem_of_cons in Hin as [<-|Hin].
  - now rewrite Hx.
  - destruct (f s y) as [s'| |] eqn:E; simpl; [now apply IH|reflexivity|].
    exfalso. exact (Hnd y s E).
Qed.

Lemma getEntityMarkdown_present (entity : Entity) (sectionText : string)
  (customEntityTransform : option CustomEntityTransform) :
  exists markdown,
    getEntityMarkdown (Some entity) sectionText customEntityTransform
    = Ok markdown.
Proof.
  unfold getEntityMarkdown. destruct customEntityTransform as [f|]; eauto.
  destruct (f (Some entity) sectionText); eauto.
Qed.

Lemma getEntityMarkdown_returns (entity : option Entity) (sectionText : string)
  (customEntityTransform : option CustomEntityTransform) :
  getEntityMarkdown entity sectionText customEntityTransform <> Diverges.
Proof.
  unfold getEntityMarkdown.
  destruct customEntityTransform as [f|], entity; try discriminate;
    destruct (f _ sectionText); discriminate.
Qed.

Section SectionRendering.

Variable JSON_parseObject : string -> option (list (string * string)).
Variables (block : Block) (entities : EntityMap).
Variables (customEntityTransform : option CustomEntityTransform).
Variables (config : option Config).

Lemma getStyleSections_returns (matchKeys : list InlineStyleNames)
  (from to : Z) :
  exists runs,
    getStyleSections JSON_parseObject block matchKeys from to config = Ok runs.
Proof.
  destruct (one_run_shape JSON_parseObject block matchKeys from to config)
    as [Hnone Hone].
  destruct (decide (text block = EmptyString)) as [E|Hne];
    [eexists; apply Hnone; now left|].
  destruct (Z.le_gt_cases to from) as [Hle|Hgt];
    [eexists; apply Hnone; now right|].
  destruct (Hone Hne) as (run & Hrun & _); [lia|]. eauto.
Qed.

(** The text of a section before the entity or hashtag wrapping. *)
Lemma styleSectionText_returns (section : Sect) :
  exists styleSectionText,
    (let? styleSections :=
       getStyleSections JSON_parseObject block BOOLEAN_INLINE_STYLE_NAMES
         (start section) (end_ section) config in
     forEachM
       (styleSectionStep JSON_parseObject block config
          (styleTransformOf config)) styleSections EmptyString)
    = Ok styleSectionText.
Proof.
  destruct (getStyleSections_returns BOOLEAN_INLINE_STYLE_NAMES
              (start section) (end_ section)) as [runs ->].
  cbn [obind]. apply forEachM_ok. intros run _ acc. unfold styleSectionStep.
  destruct (getStyleSections_returns STRING_INLINE_STYLE_NAMES
              (ss_start run) (ss_end run)) as [inner ->].
  simpl. eauto.
Qed.

Lemma getSectionMarkdown_returns (section : Sect) :
  getSectionMarkdown JSON_parseObject block entities section
    customEntityTransform config <> Diverges.
Proof.
  unfold getSectionMarkdown.
  destruct (styleSectionText_returns section) as [t Ht].
  destruct (getStyleSections _ _ _ _ _ _) as [runs| |]; try discriminate.
  cbn [obind] in *. rewrite Ht. cbn [obind].
  destruct (stype section) as [[|]|]; try discriminate.
  destruct (entityKey section); [apply getEntityMarkdown_returns|discriminate].
Qed.

Lemma getSectionMarkdown_ok (section : Sect) :
  (forall k, stype section = Some ENTITY -> entityKey section = Some k ->
             is_Some (entities !! k)) ->
  exists markdown,
    getSectionMarkdown JSON_parseObject block entities section
      customEntityTransform config = Ok markdown.
Proof.
  intros Hkey. unfold getSectionMarkdown.
  destruct (styleSectionText_returns section) as [t Ht].
  destruct (getStyleSections _ _ _ _ _ _) as [runs| |]; try discriminate.
  cbn [obind] in *. rewrite Ht. cbn [obind].
  destruct (stype section) as [[|]|]; eauto.
  destruct (entityKey section) as [k|]; eauto.
  destruct (Hkey k eq_refl eq_refl) as [entity ->].
  apply getEntityMarkdown_present.
Qed.

Lemma getSectionMarkdown_missing (section : Sect) (k : Z) :
  stype section = Some ENTITY ->
  entityKey section = Some k ->
  entities !! k = None ->
  (forall f, customEntityTransform = Some f -> forall t, f None t = None) ->
  getSectionMarkdown JSON_parseObject block entities section
    customEntityTransform config = Throws.
Proof.
  intros Htype Hkey Hmissing Hdeclines. unfold getSectionMarkdown.
  destruct (styleSectionText_returns section) as [t Ht].
  destruct (getStyleSections _ _ _ _ _ _) as [runs| |]; try discriminate.
  cbn [obind] in *. rewrite Ht. cbn [obind].
  rewrite Htype, Hkey, Hmissing. unfold getEntityMarkdown.
  destruct customEntityTransform as [f|]; [|reflexivity].
  now rewrite (Hdeclines f eq_refl).
Qed.

End SectionRendering.
Lemma getSections_returns (block : Block) (hashConfig : HashConfig) :
  trigger hashConfig <> EmptyString ->
  exists sections, getSections block hashConfig = Ok sections.
Proof.
  intros Htrig. unfold getSections, getHashtagRanges, getHashtagRangesFuel.
  destruct (hashScanLoop_enough_fuel hashConfig (String.length (text block))
              (hashScanInit (text block)) Htrig) as [hashtags ->];
    [simpl; lia|].
  simpl. eauto.
Qed.

(** An entity section carries the key of one of the entity ranges. *)
Lemma entity_section_key (block : Block) (hashConfig : HashConfig)
  (sections : list Sect) (section : Sect) (k : Z) :
  getSections block hashConfig = Ok sections ->
  section ∈ sections ->
  stype section = Some ENTITY ->
  entityKey section = Some k ->
  exists r, r ∈ entityRanges block /\ er_key r = k.
Proof.
  intros Hsections Hin Htype Hkey.
  destruct (tagged_sections_of_block block hashConfig sections Hsections)
    as (hashtags & Hhash & Htagged).
  assert (Hin' : In section (List.filter isTagged sections)).
  { apply List.filter_In. split; [now apply list_elem_of_In|].
    unfold isTagged. now rewrite Htype. }
  rewrite Htagged in Hin'. apply List.in_map_iff in Hin' as (q & <- & Hq).
  apply list_elem_of_In in Hq. rewrite sortByOffset_perm in Hq.
  apply elem_of_app in Hq as [Hq|Hq].
  - apply list_elem_of_fmap in Hq as (r & -> & Hr).
    exists r. split; [exact Hr|]. simpl in Hkey. congruence.
  - pose proof (getHashtagRanges_shape hashConfig _ _ Hhash) as Hshape.
    rewrite Forall_forall in Hshape.
    destruct (Hshape q Hq) as (Ht & _). simpl in Htype. congruence.
Qed.

(** Every entity range has its section. *)
Lemma entity_range_section (block : Block) (hashConfig : HashConfig)
  (sections : list Sect) (r : EntityRange) :
  getSections block hashConfig = Ok sections ->
  r ∈ entityRanges block ->
  rangeSection (entityPreSection r) ∈ sections.
Proof.
  intros Hsections Hr.
  destruct (tagged_sections_of_block block hashConfig sections Hsections)
    as (hashtags & _ & Htagged).
  apply list_elem_of_In.
  apply (proj1 (List.filter_In isTagged _ sections)).
  rewrite Htagged. apply List.in_map. apply list_elem_of_In.
  rewrite sortByOffset_perm. apply elem_of_app. left.
  now apply list_elem_of_fmap_2.
Qed.

Lemma indexed_section (sections : list Sect) (section : Sect) :
  section ∈ sections ->
  exists index,
    (index, section) ∈ zip (seqZ 0 (Z.of_nat (length sections))) sections.
Proof.
  intros Hin. apply list_elem_of_lookup in Hin as [n Hn].
  exists (Z.of_nat n). apply list_elem_of_lookup. exists n.
  apply lookup_zip_with_Some. exists (Z.of_nat n), section.
  split; [reflexivity|]. split; [|exact Hn].
  apply lookup_seqZ. split; [lia|]. apply lookup_lt_Some in Hn. lia.
Qed.

Lemma indexed_section_inv (sections : list Sect) (indexed : Z * Sect) :
  indexed ∈ zip (seqZ 0 (Z.of_nat (length sections))) sections ->
  indexed.2 ∈ sections.
Proof.
  intros Hin. destruct indexed as [i s].
  apply elem_of_zip_r in Hin. exact Hin.
Qed.

Section BlockOutcome.

Variable JSON_parseObject : string -> option (list (string * string)).
Variables (block : Block) (entities : EntityMap) (hashConfig : HashConfig).
Variables (customEntityTransform : option CustomEntityTransform).
Variables (config : option Config).

Lemma getBlockContentMarkdown_ok :
  trigger hashConfig <> EmptyString ->
  (forall r, r ∈ entityRanges block -> is_Some (entities !! er_key r)) ->
  exists markdown,
    getBlockContentMarkdown JSON_parseObject block entities hashConfig
      customEntityTransform config = Ok markdown.
Proof.
  intros Htrig Hknown. unfold getBlockContentMarkdown.
  destruct (isAtomicBlock block) eqn:Hatomic.
  - destruct (entityRanges block) as [|r rs] eqn:E.
    + unfold isAtomicBlock in Hatomic. rewrite E in Hatomic. discriminate.
    + destruct (Hknown r (list_elem_of_here _ _)) as [entity ->].
      apply getEntityMarkdown_present.
  - destruct (getSections_returns block hashConfig Htrig) as [sections Hs].
    rewrite Hs. cbn [obind].
    destruct (forEachM_ok
                (blockSectionStep JSON_parseObject block entities
                   customEntityTransform config
                   (Z.of_nat (length sections)))
                (zip (seqZ 0 (Z.of_nat (length sections))) sections))
      with (s := @nil string) as [out ->].
    + intros [i section] Hin acc. unfold blockSectionStep.
      apply indexed_section_inv in Hin. simpl in Hin.
      destruct (getSectionMarkdown_ok JSON_parseObject block entities
                  customEntityTransform config section) as [markdown ->].
      * intros k Htype Hkey.
        destruct (entity_section_key block hashConfig sections section k
                    Hs Hin Htype Hkey) as (r & Hr & <-).
        now apply Hknown.
      * simpl. eauto.
    + simpl. eauto.
Qed.

End BlockOutcome.

(** X21: a well-formed document always converts.  When the trigger in force
    is not empty, every entity range of every block names an entity of the
    entity map, and no list item has a negative depth, [draftToMarkdown]
    returns a string: it neither throws nor loops, whatever the texts, the
    style ranges and the configuration are (a custom entity transform is a
    function that returns). *)
Theorem draftToMarkdown_succeeds
  (JSON_parseObject : string -> option (list (string * string)))
  (content : EditorContent) (hashConfig : PartialHashConfig)
  (customEntityTransform : option CustomEntityTransform)
  (config : option Config) :
  default "#" (p_trigger hashConfig) <> EmptyString ->
  (forall b, b ∈ blocks content ->
     (forall r, r ∈ entityRanges b ->
                is_Some (entityMap content !! er_key r))
     /\ (isList (type b) = true -> 0 <= depth b)) ->
  exists markdown,
    draftToMarkdown JSON_parseObject (Some content) hashConfig
      customEntityTransform config = Ok markdown.
Proof.
  intros Htrig Hblocks. unfold draftToMarkdown.
  match goal with
  | |- context [forEachM ?f (blocks content) []] =>
      destruct (forEachM_ok f (blocks content)) with (s := @nil string)
        as [out ->]
  end.
  - intros b Hb acc. destruct (Hblocks b Hb) as [Hknown Hdepth].
    unfold documentStep, getBlockMarkdown.
    edestruct (getBlockContentMarkdown_ok JSON_parseObject b
                 (entityMap content)) as [markdown ->];
      [exact Htrig | exact Hknown |].
    cbn [obind]. destruct (isList (type b)); [|simpl; eauto].
    unfold getDepthPadding.
    destruct (Z.ltb_spec (depth b) 0); [specialize (Hdepth eq_refl); lia|].
    simpl. eauto.
  - simpl. eauto.
Qed.

Lemma draftToMarkdown_succeeds_witness :
  exists markdown,
    draftToMarkdown (fun _ => None)
      (Some {| blocks := [gapBlock; spaceBlock];
               entityMap := {[ 0 := imageEntity ]} |})
      {| p_trigger := None; p_separator := None |} None None = Ok markdown.
Proof.
  apply (draftToMarkdown_succeeds (fun _ => None)
           {| blocks := [gapBlock; spaceBlock];
              entityMap := {[ 0 := imageEntity ]} |}
           {| p_trigger := None; p_separator := None |} None None).
  - discriminate.
  - intros b Hb. cbn [blocks entityMap] in *.
    apply elem_of_cons in Hb as [->|Hb];
      [|apply elem_of_cons in Hb as [->|Hb]; [|inversion Hb]].
    + split; [|discriminate]. intros r Hr. cbn [entityRanges gapBlock] in Hr.
      apply list_elem_of_singleton in Hr as ->. now exists imageEntity.
    + split; [|discriminate]. intros r Hr. cbn [entityRanges spaceBlock] in Hr.
      apply list_elem_of_singleton in Hr as ->. now exists imageEntity.
Defined.

(** X22: a missing entity makes the block throw.  Let the custom entity
    transform be absent, or answer [undefined] for an [undefined] entity.  An
    atomic block throws when the key of its first entity range is not in the
    entity map; any other block throws, given a non-empty trigger, as soon as
    the key of one of its entity ranges is not in the map. *)
Theorem getBlockContentMarkdown_missing_entity
  (JSON_parseObject : string -> option (list (string * string)))
  (block : Block) (entities : EntityMap) (hashConfig : HashConfig)
  (customEntityTransform : option CustomEntityTransform)
  (config : option Config) :
  (forall f, customEntityTransform = Some f -> forall t, f None t = None) ->
  (forall r others,
      isAtomicBlock block = true ->
      entityRanges block = r :: others ->
      entities !! er_key r = None ->
      getBlockContentMarkdown JSON_parseObject block entities hashConfig
        customEntityTransform config = Throws)
  /\ (forall r,
        isAtomicBlock block = false ->
        trigger hashConfig <> EmptyString ->
        r ∈ entityRanges block ->
        entities !! er_key r = None ->
        getBlockContentMarkdown JSON_parseObject block entities hashConfig
          customEntityTransform config = Throws).
Proof.
  intros Hdeclines. split.
  - intros r others Hatomic Hranges Hmissing.
    unfold getBlockContentMarkdown. rewrite Hatomic, Hranges, Hmissing.
    unfold getEntityMarkdown. destruct customEntityTransform as [f|];
      [|reflexivity].
    now rewrite (Hdeclines f eq_refl).
  - intros r Hatomic Htrig Hr Hmissing.
    unfold getBlockContentMarkdown. rewrite Hatomic.
    destruct (getSections_returns block hashConfig Htrig) as [sections Hs].
    rewrite Hs. cbn [obind].
    destruct (indexed_section sections (rangeSection (entityPreSection r)))
      as [index Hin]; [now apply (entity_range_section block hashConfig)|].
    assert (Hnd : forall (y : Z * Sect) (s : list string),
               blockSectionStep JSON_parseObject block entities
                 customEntityTransform config (Z.of_nat (length sections)) s y
               <> Diverges).
    { intros [i section] s. unfold blockSectionStep.
      pose proof (getSectionMarkdown_returns JSON_parseObject block entities
                    customEntityTransform config section) as Hret.
      destruct (getSectionMarkdown _ _ _ _ _ _) as [markdown| |];
        [discriminate | discriminate | contradiction]. }
    rewrite (forEachM_throws _ _ _ Hnd Hin); [reflexivity|].
    intros acc. unfold blockSectionStep.
    now rewrite (getSectionMarkdown_missing JSON_parseObject block entities
                   customEntityTransform config
                   (rangeSection (entityPreSection r)) (er_key r)).
Qed.

Lemma getBlockContentMarkdown_missing_entity_witness :
  getBlockContentMarkdown (fun _ => None) gapBlock ∅ defaultHashConfig None None
  = Throws.
Proof.
  refine (proj2 (getBlockContentMarkdown_missing_entity (fun _ => None)
            gapBlock ∅ defaultHashConfig None None _)
          {| er_offset := 2; er_length := 1; er_key := 0 |} _ _ _ _).
  - discriminate.
  - reflexivity.
  - discriminate.
  - apply list_elem_of_here.
  - reflexivity.
Defined.
